(** * 2-D wave-equation solver (DD2356 project): shallow embedding

    The C++ sources [Project/serial/main.cpp], [Project/unitTests/simulation.cpp]
    and [Project/mpi/main.cpp] are embedded as Rocq functions, and with them
    the stencil of [Project/openMp/main.cpp], the stencil and the image update
    of [Project/serial/mainSFML.cpp], the tests of
    [Project/unitTests/test_simulation.cpp] and the counting loop of
    [Assignment-III/Ex4/pi_seq.c].

    - [double] is the kernel's binary64 type [float]: every operation is
      rounded to nearest even, which is the arithmetic of the C++ code on
      x86-64 when the compiler does not contract products and sums into fused
      multiply-adds.  The literals are those of the source.
    - [std::vector<std::vector<T>>] is [list (list T)], read with stdpp's
      lookup and written with [alter]/insert.  Indexing a vector out of
      range is undefined behaviour in C++; here a read out of range yields the
      default value and a write out of range does nothing.  Every theorem is
      about grids of the dimensions the callers allocate, for which every
      index the loops produce is in range.
    - [int] indices are [nat]: the loops only produce non-negative values and
      [/] on them is floor division; the products [9*N], [11*N] stay far below
      the largest [int] for every grid that fits in memory.  An upper bound
      [N-1] that is negative in C++ (N = 0) is 0 here, and the loop is empty
      in both.  The grid size is the constant [N = 256] in the sources; the
      functions take it as an argument so that the statements made "for every
      N" can be stated.
    - [std::sin] and [std::pow] belong to the C library: the functions that
      call them take them as parameters. *)

From Stdlib Require Import Floats ZArith Lia.
From stdpp Require Import base option list.

Abbreviation grid A := (list (list A)).

(** ** Vectors *)

(** [m[i][j]] as an optional value: [None] out of range. *)
Definition cellO {A} (m : grid A) (i j : nat) : option A :=
  m !! i ≫= (.!! j).

(** [m[i][j] = v]. *)
Definition set_cell {A} (m : grid A) (i j : nat) (v : A) : grid A :=
  alter (<[j := v]>) i m.

(** [std::vector<std::vector<T>> m(rows, std::vector<T>(cols, v))]. *)
Definition mk_grid {A} (rows cols : nat) (v : A) : grid A :=
  replicate rows (replicate cols v).

(** Reads of a [double] field, of the mask and of a coordinate vector. *)
Definition rd (U : grid float) (i j : nat) : float := default 0%float (cellO U i j).
Definition rdb (mask : grid bool) (i j : nat) : bool := default false (cellO mask i j).
Definition rdv (x : list float) (i : nat) : float := default 0%float (x !! i).

(** What a cell holds after an assignment of [v] to it: the cell must exist. *)
Definition overwrite {A} (v : A) (c : option A) : option A :=
  match c with Some _ => Some v | None => None end.

(** ** Loops *)

(** [body i] for [i = lo, lo+1, ...], [n] times. *)
Fixpoint iter_from {St} (body : nat -> St -> St) (lo n : nat) (s : St) : St :=
  match n with
  | O => s
  | S n' => iter_from body (S lo) n' (body lo s)
  end.

(** [for (int i = lo; i < hi; ++i) body]. *)
Definition for_loop {St} (lo hi : nat) (body : nat -> St -> St) (s : St) : St :=
  iter_from body lo (hi - lo) s.

(** [body i] for [i = lo, lo+1, ...], [n] times, for a body that can fail. *)
Fixpoint iter_fromM {St} (body : nat -> St -> option St) (lo n : nat) (s : St)
  : option St :=
  match n with
  | O => Some s
  | S n' => s' ← body lo s; iter_fromM body (S lo) n' s'
  end.

(** [for (int i = lo; i < hi; ++i) body], for a body that can fail. *)
Definition for_loopM {St} (lo hi : nat) (body : nat -> St -> option St) (s : St)
  : option St :=
  iter_fromM body lo (hi - lo) s.

(** Conversion of an [int] loop index to [double]. *)
Definition of_int (i : nat) : float := of_uint63 (Uint63.of_Z (Z.of_nat i)).

(** ** Constants of the sources *)

Definition N : nat := 256.
Definition boxsize : float := 1%float.
Definition c : float := 1%float.
Definition tEnd : float := 2%float.
(** [M_PI] of <cmath>, 3.14159265358979323846 as a double. *)
Definition M_PI : float := 0x1.921fb54442d18p+1%float.

(** The locals [dx], [dt], [fac] of every [main]. *)
Definition dx_of (n : nat) : float := (boxsize / of_int n)%float.
Definition dt_of (n : nat) : float := (sqrt 2 / 2 * dx_of n / c)%float.
Definition fac_of (n : nat) : float :=
  (dt_of n * dt_of n * c * c / (dx_of n * dx_of n))%float.
Definition dx : float := dx_of N.
Definition dt : float := dt_of N.
Definition fac : float := fac_of N.

(** The coordinate loop shared by every [initializeGrid]:
    [xlin[i] = 0.5 * dx + i * dx]. *)
Definition init_xlin (n : nat) (xlin : list float) : list float :=
  for_loop 0 n (fun i x => <[i := (0.5 * dx_of n + of_int i * dx_of n)%float]> x) xlin.

(** ** Serial and unit-test variant
    ([serial/main.cpp], [unitTests/simulation.cpp], [unitTests/main.cpp]) *)
Module Serial.

(** The three mask loops of [initializeGrid]. *)
Definition mask_edges (n : nat) (mask : grid bool) : grid bool :=
  for_loop 0 n (fun i m =>
    let m := set_cell m 0 i true in
    let m := set_cell m (n - 1) i true in
    let m := set_cell m i 0 true in
    set_cell m i (n - 1) true) mask.

Definition mask_barrier (n : nat) (mask : grid bool) : grid bool :=
  for_loop (n / 4) (9 * n / 32) (fun i m =>
    for_loop 0 (n - 1) (fun j m => set_cell m i j true) m) mask.

Definition mask_slits (n : nat) (mask : grid bool) : grid bool :=
  for_loop 1 (n - 1) (fun i m =>
    let m := for_loop (5 * n / 16) (3 * n / 8) (fun j m => set_cell m i j false) m in
    for_loop (5 * n / 8) (11 * n / 16) (fun j m => set_cell m i j false) m) mask.

(** [initializeGrid(U, mask, xlin)]: [U] is not touched; the new mask and the
    new coordinate vector are returned. *)
Definition initializeGrid (n : nat) (mask : grid bool) (xlin : list float)
  : grid bool * list float :=
  (mask_slits n (mask_barrier n (mask_edges n mask)), init_xlin n xlin).

(** The mask as every caller builds it: [initializeGrid] on an all-false
    [n] x [n] mask. *)
Definition build_mask (n : nat) : grid bool :=
  fst (initializeGrid n (mk_grid n n false) (replicate n 0%float)).

(** The value [updateLaplacian] assigns to [Unew[i][j]]. *)
Definition update_val (U : grid float) (fac : float) (i j : nat) : float :=
  let ULX := rd U (i - 1) j in
  let URX := rd U (i + 1) j in
  let ULY := rd U i (j - 1) in
  let URY := rd U i (j + 1) in
  let laplacian := (ULX + URX + ULY + URY - 4 * rd U i j)%float in
  (2 * rd U i j - rd U i j + fac * laplacian)%float.

(** [updateLaplacian(U, Unew, mask, fac)]; the new [Unew] is returned. *)
Definition updateLaplacian (n : nat) (U Unew : grid float) (mask : grid bool)
    (fac : float) : grid float :=
  for_loop 1 (n - 1) (fun i Unew =>
    for_loop 1 (n - 1) (fun j Unew =>
      if negb (rdb mask i j) then set_cell Unew i j (update_val U fac i j)
      else Unew) Unew) Unew.

(** The variables of [main]; [out] is what the loop printed, the latest
    value first. *)
Record sim := Sim {
  U : grid float; Uprev : grid float; Unew : grid float;
  mask : grid bool; xlin : list float;
  t : float; out : list float }.

(** [main] up to the loop. *)
Definition main_init (n : nat) : sim :=
  let U0 := mk_grid n n 0%float in
  let '(mask, xlin) := initializeGrid n (mk_grid n n false) (replicate n 0%float) in
  {| U := U0; Uprev := U0; Unew := mk_grid n n 0%float;
     mask := mask; xlin := xlin; t := 0%float; out := [] |}.

Section Libm.
Variable sin : float -> float.
Variable pow : float -> float -> float.

(** The source term written on row 0. *)
Definition source (t : float) (xlin : list float) (i : nat) : float :=
  (sin (20 * M_PI * t) * pow (sin (M_PI * rdv xlin i)) 2)%float.

(** First loop of [applyBoundaryConditions]; the chained assignment
    [U[i][0] = U[i][N-1] = U[0][i] = U[N-1][i] = 0.0] assigns right to left. *)
Definition bc_zero (n : nat) (mask : grid bool) (U : grid float) : grid float :=
  for_loop 0 n (fun i U =>
    if rdb mask i 0 || rdb mask i (n - 1) || rdb mask 0 i || rdb mask (n - 1) i then
      let U := set_cell U (n - 1) i 0%float in
      let U := set_cell U 0 i 0%float in
      let U := set_cell U i (n - 1) 0%float in
      set_cell U i 0 0%float
    else U) U.

(** Second loop: the source on row 0. *)
Definition bc_source (n : nat) (t : float) (xlin : list float) (U : grid float)
  : grid float :=
  for_loop 0 n (fun i U => set_cell U 0 i (source t xlin i)) U.

Definition applyBoundaryConditions (n : nat) (U : grid float) (mask : grid bool)
    (t : float) (xlin : list float) : grid float :=
  bc_source n t xlin (bc_zero n mask U).

(** One iteration of the [while] loop of [main]. *)
Definition step (n : nat) (s : sim) : sim :=
  let Unew1 := updateLaplacian n (U s) (Unew s) (mask s) (fac_of n) in
  let Uprev1 := U s in
  let U1 := Unew1 in
  let U2 := applyBoundaryConditions n U1 (mask s) (t s) (xlin s) in
  let t1 := (t s + dt_of n)%float in
  {| U := U2; Uprev := Uprev1; Unew := Unew1; mask := mask s; xlin := xlin s;
     t := t1; out := t1 :: out s |}.

(** [while (t < tEnd) { ... }]: [None] when the fuel runs out first. *)
Fixpoint main_loop (fuel n : nat) (s : sim) : option sim :=
  if (t s <? tEnd)%float then
    match fuel with
    | O => None
    | S fuel' => main_loop fuel' n (step n s)
    end
  else Some s.
End Libm.

End Serial.

(** ** Distributed variant ([mpi/main.cpp]) *)
Module Mpi.

(** [initializeGrid(U, mask, xlin, local_N)]. *)
Definition initializeGrid (n : nat) (mask : grid bool) (xlin : list float)
    (local_N : nat) : grid bool * list float :=
  (for_loop 0 local_N (fun i m =>
     let m := set_cell m i 0 true in
     set_cell m i (n - 1) true) mask,
   init_xlin n xlin).

(** The value [calculateLaplacian] assigns to [Unew[i][j]]. *)
Definition update_val (U Uprev : grid float) (fac : float) (i j : nat) : float :=
  let ULX := rd U i (j - 1) in
  let URX := rd U i (j + 1) in
  let ULY := rd U (i - 1) j in
  let URY := rd U (i + 1) j in
  let laplacian := (ULX + URX + ULY + URY - 4 * rd U i j)%float in
  (2 * rd U i j - rd Uprev i j + fac * laplacian)%float.

(** [calculateLaplacian(U, Uprev, mask, Unew, fac, local_N)]; the new [Unew]
    is returned. *)
Definition calculateLaplacian (n : nat) (U Uprev : grid float) (mask : grid bool)
    (Unew : grid float) (fac : float) (local_N : nat) : grid float :=
  for_loop 1 (local_N - 1) (fun i Unew =>
    for_loop 1 (n - 1) (fun j Unew =>
      if negb (rdb mask i j) then set_cell Unew i j (update_val U Uprev fac i j)
      else Unew) Unew) Unew.

(** The variables of one process in [main]; [steps] is not in the source: it
    counts the iterations of the loop. *)
Record worker := Worker {
  rank : nat; size : nat; local_N : nat; start_row : nat; end_row : nat;
  U : grid float; Uprev : grid float; Unew : grid float;
  mask : grid bool; xlin : list float;
  t : float; steps : nat }.

(** [main] of process [rank] out of [size], up to the loop. *)
Definition main_init (n size rank : nat) : worker :=
  let local_N := n / size in
  let '(mask, xlin) :=
    initializeGrid n (mk_grid local_N n false) (replicate n 0%float) local_N in
  {| rank := rank; size := size; local_N := local_N;
     start_row := rank * local_N; end_row := (rank + 1) * local_N;
     U := mk_grid local_N n 0%float; Uprev := mk_grid local_N n 0%float;
     Unew := mk_grid local_N n 0%float;
     mask := mask; xlin := xlin; t := 0%float; steps := 0 |}.

(** The first two statements of the loop body: [calculateLaplacian] and the
    roll of the buffers. *)
Definition stencil_phase (n : nat) (w : worker) : worker :=
  let Unew1 := calculateLaplacian n (U w) (Uprev w) (mask w) (Unew w) (fac_of n) (local_N w) in
  {| rank := rank w; size := size w; local_N := local_N w;
     start_row := start_row w; end_row := end_row w;
     U := Unew1; Uprev := U w; Unew := Unew1;
     mask := mask w; xlin := xlin w; t := t w; steps := steps w |}.

Section Libm.
Variable sin : float -> float.
Variable pow : float -> float -> float.

(** [applyBoundaryConditions(U, mask, xlin, t, local_N)]: the chained
    assignment [U[i][0] = U[i][N - 1] = 0.0] assigns right to left. *)
Definition applyBoundaryConditions (n : nat) (U : grid float) (mask : grid bool)
    (xlin : list float) (t : float) (local_N : nat) : grid float :=
  let U := for_loop 0 local_N (fun i U =>
             let U := set_cell U i (n - 1) 0%float in
             set_cell U i 0 0%float) U in
  for_loop 0 local_N (fun i U => set_cell U i 0 (Serial.source sin pow t xlin i)) U.

(** The rest of the loop body: boundary conditions and [t += dt]. *)
Definition bc_phase (n : nat) (w : worker) : worker :=
  {| rank := rank w; size := size w; local_N := local_N w;
     start_row := start_row w; end_row := end_row w;
     U := applyBoundaryConditions n (U w) (mask w) (xlin w) (t w) (local_N w);
     Uprev := Uprev w; Unew := Unew w;
     mask := mask w; xlin := xlin w; t := (t w + dt_of n)%float;
     steps := S (steps w) |}.

(** One iteration of the [while] loop of [main]. *)
Definition step (n : nat) (w : worker) : worker := bc_phase n (stencil_phase n w).

(** [while (t < tEnd) { ... }]: [None] when the fuel runs out first. *)
Fixpoint main_loop (fuel n : nat) (w : worker) : option worker :=
  if (t w <? tEnd)%float then
    match fuel with
    | O => None
    | S fuel' => main_loop fuel' n (step n w)
    end
  else Some w.

(** [main]: the exit status (always [return 0]) and the final variables.
    The timing calls and the gather of the elapsed times are left out. *)
Definition main (fuel n size rank : nat) : option (Z * worker) :=
  w ← main_loop fuel n (main_init n size rank); Some (0%Z, w).

End Libm.

(** The processes of a run of [size] processes before the loop. *)
Definition world_init (n size : nat) : list worker :=
  main_init n size <$> seq 0 size.

(** The masks of the processes, stacked in rank order. *)
Definition assembled_mask (n size : nat) : grid bool :=
  concat (mask <$> world_init n size).

End Mpi.

(** ** Shared-memory variant ([openMp/main.cpp])

    [initializeGrid] and [applyBoundaryConditions] of this variant are those of
    the serial one: distinct iterations of their [parallel for] loops write
    distinct rows or cells, so that they compute what the sequential loops
    compute. *)
Module OpenMp.

(** The vectors a call works on, by address: two reference parameters bound to
    the same vector hold the same address. *)
Definition heap := list (grid float).
Definition deref (h : heap) (r : nat) : grid float := default [] (h !! r).

(** The value [calculateLaplacian] assigns to [Unew[i][j]]: [U] is the vector
    as it is when the iteration runs, [Uprev] the copy taken on entry. *)
Definition update_val (U Uprev : grid float) (fac : float) (i j : nat) : float :=
  let ULX := rd U (i - 1) j in
  let URX := rd U (i + 1) j in
  let ULY := rd U i (j - 1) in
  let URY := rd U i (j + 1) in
  let laplacian := (ULX + URX + ULY + URY - 4 * rd U i j)%float in
  (2 * rd U i j - rd Uprev i j + fac * laplacian)%float.

(** [calculateLaplacian(U, Unew, mask, fac)] with [U] at the address [rU] and
    [Unew] at the address [rUnew]; the iterations run in program order, as a
    team of one thread (the first entry of [threads] in [main]) runs them. *)
Definition calculateLaplacian (n : nat) (rU rUnew : nat) (mask : grid bool)
    (fac : float) (h : heap) : heap :=
  let Uprev := deref h rU in
  for_loop 1 (n - 1) (fun i h =>
    for_loop 1 (n - 1) (fun j h =>
      if negb (rdb mask i j) then
        alter (fun Unew => set_cell Unew i j (update_val (deref h rU) Uprev fac i j))
          rUnew h
      else h) h) h.

(** The call [calculateLaplacian(U, U, mask, fac)] of [main]: the new [U]. *)
Definition calculateLaplacian_in_place (n : nat) (U : grid float) (mask : grid bool)
    (fac : float) : grid float :=
  deref (calculateLaplacian n 0 0 mask fac [U]) 0.

End OpenMp.

(** ** Visualising variant ([serial/mainSFML.cpp])

    [initializeGrid] and [applyBoundaryConditions] of this variant are those of
    the serial one; the stencil and the image update are blocks of [main]. *)
Module Sfml.

(** The value the stencil loop of [main] assigns to [Unew[i][j]]. *)
Definition update_val (U Uprev : grid float) (fac : float) (i j : nat) : float :=
  let ULX := rd U (i - 1) j in
  let URX := rd U (i + 1) j in
  let ULY := rd U i (j - 1) in
  let URY := rd U i (j + 1) in
  let laplacian := (ULX + URX + ULY + URY - 4 * rd U i j)%float in
  (2 * rd U i j - rd Uprev i j + fac * laplacian)%float.

(** The stencil loop of [main] ("calculate laplacian"); the new [Unew]. *)
Definition stencil (n : nat) (U Uprev Unew : grid float) (mask : grid bool)
    (fac : float) : grid float :=
  for_loop 1 (n - 1) (fun i Unew =>
    for_loop 1 (n - 1) (fun j Unew =>
      if negb (rdb mask i j) then set_cell Unew i j (update_val U Uprev fac i j)
      else Unew) Unew) Unew.

(** [static_cast<int>(x)]: the value of [x] with its fraction discarded, when
    that is an [int]; the conversion is undefined otherwise ([None]). *)
Definition trunc (x : float) : option Z :=
  match Prim2SF x with
  | S754_zero _ => Some 0%Z
  | S754_finite s m e =>
      let a := (if 0 <=? e then Z.pos m * 2 ^ e else Z.pos m / 2 ^ (- e))%Z in
      Some (if s then - a else a)%Z
  | _ => None
  end.
Definition to_int (x : float) : option Z :=
  z ← trunc x;
  if ((- 2 ^ 31 <=? z) && (z <? 2 ^ 31))%Z then Some z else None.

(** [sf::Color]: the constructor takes its channels as [Uint8], so an [int]
    argument is reduced modulo 256. *)
Record Color := { r : Z; g : Z; b : Z }.
Definition Uint8 (v : Z) : Z := (v mod 256)%Z.
Definition mkColor (red green blue : Z) : Color :=
  {| r := Uint8 red; g := Uint8 green; b := Uint8 blue |}.
Definition Black : Color := {| r := 0; g := 0; b := 0 |}.
Definition White : Color := {| r := 255; g := 255; b := 255 |}.

(** The colour [main] gives to the pixel of a cell. *)
Definition pixel (masked : bool) (u : float) : option Color :=
  if masked then Some Black
  else
    colorValue ← to_int (127.5 * (u + 1))%float;
    let colorValue := Z.max 0 (Z.min 255 colorValue) in
    Some (mkColor colorValue colorValue (255 - colorValue)).

(** The loop "Update the SFML image": [image] holds the pixel [(x, y)] at
    [image[x][y]]. *)
Definition update_image (n : nat) (mask : grid bool) (U : grid float)
    (image : grid Color) : option (grid Color) :=
  for_loopM 0 n (fun i image =>
    for_loopM 0 n (fun j image =>
      col ← pixel (rdb mask i j) (rd U i j);
      Some (set_cell image i j col)) image) image.

End Sfml.

(** ** Unit tests ([unitTests/test_simulation.cpp]) *)
Module UnitTests.

(** [for (int i = lo; ...; ++i) { if (bad(i)) { passed = false; break; } }],
    [n] iterations at most: the value of [passed] after the loop. *)
Fixpoint check_from (bad : nat -> bool) (lo n : nat) (passed : bool) : bool :=
  match n with
  | O => passed
  | S n' => if bad lo then false else check_from bad (S lo) n' passed
  end.

(** [test_initializeGrid]: the value of [passed] that selects the printed
    verdict, [PASSED] for [true] and [FAILED] for [false]. *)
Definition test_initializeGrid (n : nat) : bool :=
  let '(mask, xlin) :=
    Serial.initializeGrid n (mk_grid n n false) (replicate n 0%float) in
  check_from (fun i => negb (rdb mask 0 i) || negb (rdb mask (n - 1) i)
                       || negb (rdb mask i 0) || negb (rdb mask i (n - 1)))
    0 n true.

Section Libm.
Variable sin : float -> float.
Variable pow : float -> float -> float.

(** [test_applyBoundaryConditions]; [!=] is the comparison of doubles. *)
Definition test_applyBoundaryConditions (n : nat) : bool :=
  let U := mk_grid n n 0%float in
  let '(mask, xlin) :=
    Serial.initializeGrid n (mk_grid n n false) (replicate n 0%float) in
  let t := 0%float in
  let U := Serial.applyBoundaryConditions sin pow n U mask t xlin in
  check_from (fun i => negb (rd U i 0 =? 0)%float || negb (rd U i (n - 1) =? 0)%float
                       || negb (rd U 0 i =? 0)%float || negb (rd U (n - 1) i =? 0)%float)
    0 n true.
End Libm.

End UnitTests.

(** ** Monte-Carlo estimate of pi ([Assignment-III/Ex4/pi_seq.c]) *)
Module PiSeq.

Definition SEED : Z := 921.
Definition NUM_ITER : Z := 1000000000.
(** [RAND_MAX] and the largest [int] of the C library the program is built
    with (glibc on x86-64). *)
Definition RAND_MAX : Z := 2147483647.
Definition INT_MAX : Z := 2147483647.

Section Rand.
(** [rand seed k]: the value of the [k]-th call of [rand()] after
    [srand(seed)]. *)
Variable rand : Z -> nat -> Z.

(** [(double)rand() / (double)RAND_MAX], for the [k]-th call. *)
Definition sample (seed : Z) (k : nat) : float :=
  (of_uint63 (Uint63.of_Z (rand seed k)) / of_uint63 (Uint63.of_Z RAND_MAX))%float.

(** One iteration of the loop: two calls of [rand()], then the test. *)
Definition trial (seed : Z) (iter : nat) (localCount : Z) : Z :=
  let x := sample seed (2 * iter) in
  let y := sample seed (2 * iter + 1) in
  let z := sqrt (x * x + y * y)%float in
  if (z <=? 1)%float then (localCount + 1)%Z else localCount.

(** [iterPerProcess] and the value of [localCount] of process [rank] after its
    loop. *)
Definition iterPerProcess (numRanks : nat) : Z := (NUM_ITER / Z.of_nat numRanks)%Z.
Definition localCount (numRanks rank : nat) : Z :=
  for_loop 0 (Z.to_nat (iterPerProcess numRanks)) (trial (SEED * Z.of_nat rank)) 0%Z.

(** [MPI_Reduce] with [MPI_SUM]: the value of [totalCount] on process 0. *)
Definition totalCount (numRanks : nat) : Z :=
  foldr Z.add 0%Z (localCount numRanks <$> seq 0 numRanks).

(** The estimate process 0 prints. *)
Definition pi (numRanks : nat) : float :=
  (of_uint63 (Uint63.of_Z (totalCount numRanks)) / of_uint63 (Uint63.of_Z NUM_ITER)
   * 4)%float.
End Rand.

End PiSeq.

(** ** Vocabulary of the properties *)

(** A vector of [rows] rows of [cols] entries each. *)
Definition is_grid {A} (rows cols : nat) (m : grid A) : Prop :=
  length m = rows ∧ Forall (λ r, length r = cols) m.

(** [F] assigns [val i j] to the cells [(i, j)] of the footprint [W] and leaves
    every other cell as it was; cells that do not exist stay absent. *)
Definition writes {A} (F : grid A → grid A) (W : nat → nat → Prop)
    (val : nat → nat → A) : Prop :=
  ∀ m i j,
    (W i j → cellO (F m) i j = overwrite (val i j) (cellO m i j)) ∧
    (¬ W i j → cellO (F m) i j = cellO m i j) ∧
    (cellO (F m) i j = cellO m i j ∨
     cellO (F m) i j = overwrite (val i j) (cellO m i j)).

(** Regions of the mask: the four outer edges, the barrier band, the two slit
    column ranges, and the slit cells (slit columns of the rows [1, n-1)). *)
Definition on_edge (n i j : nat) : Prop := i = 0 ∨ i = n - 1 ∨ j = 0 ∨ j = n - 1.
Definition in_barrier (n i j : nat) : Prop := n / 4 ≤ i < 9 * n / 32 ∧ j < n - 1.
Definition slit_column (n j : nat) : Prop :=
  5 * n / 16 ≤ j < 3 * n / 8 ∨ 5 * n / 8 ≤ j < 11 * n / 16.
Definition in_slit (n i j : nat) : Prop := 1 ≤ i < n - 1 ∧ slit_column n j.

Definition wall (m : grid bool) (i j : nat) : Prop := cellO m i j = Some true.
Definition open_cell (m : grid bool) (i j : nat) : Prop := cellO m i j = Some false.

(** The two wall clauses of the mask contract, read without exception. *)
Definition edges_walled (n : nat) (m : grid bool) : Prop :=
  ∀ i j, i < n → j < n → on_edge n i j → wall m i j.
Definition barrier_solid (n : nat) (m : grid bool) : Prop :=
  ∀ i j, i < n → j < n → in_barrier n i j → wall m i j.

(** The three-layer (leapfrog) stencil of the specification:
    [2*current - previous + fac * (up + down + left + right - 4*current)]. *)
Definition leapfrog_val (current previous : grid float) (fac : float) (i j : nat)
  : float :=
  (2 * rd current i j - rd previous i j
   + fac * (rd current (i - 1) j + rd current (i + 1) j
            + rd current i (j - 1) + rd current i (j + 1) - 4 * rd current i j))%float.

(** The two-layer scheme: [U + fac * (up + down + left + right - 4*U)]. *)
Definition two_layer_val (U : grid float) (fac : float) (i j : nat) : float :=
  (rd U i j
   + fac * (rd U (i - 1) j + rd U (i + 1) j
            + rd U i (j - 1) + rd U i (j + 1) - 4 * rd U i j))%float.

(** The variables of the serial [main] with another previous layer. *)
Definition with_Uprev (s : Serial.sim) (P : grid float) : Serial.sim :=
  {| Serial.U := Serial.U s; Serial.Uprev := P; Serial.Unew := Serial.Unew s;
     Serial.mask := Serial.mask s; Serial.xlin := Serial.xlin s;
     Serial.t := Serial.t s; Serial.out := Serial.out s |}.

(** A field that is zero except for the value [v] at [(i0, j0)]. *)
Definition impulse (n i0 j0 : nat) (v : float) : grid float :=
  set_cell (mk_grid n n 0%float) i0 j0 v.



(** The boundary contract read for every index: the three zero edges and the
    source row, corners included. *)
Definition bc_contract (sin : float → float) (pow : float → float → float)
    (n : nat) (t : float) (xlin : list float) (U' : grid float) : Prop :=
  ∀ i, i < n →
    cellO U' i 0 = Some 0%float ∧ cellO U' i (n - 1) = Some 0%float ∧
    cellO U' (n - 1) i = Some 0%float ∧
    cellO U' 0 i = Some (Serial.source sin pow t xlin i).

(** The CFL ratio [c*dt/dx] of the run and the bound [1/sqrt(2)]. *)
Definition cfl_ratio : float := (c * dt / dx)%float.
Definition cfl_bound : float := (1 / sqrt 2)%float.

(** The least integer not below a finite double. *)
Definition Zceil (x : float) : option Z :=
  match Prim2SF x with
  | S754_zero _ => Some 0%Z
  | S754_finite s m e =>
      let n := if s then Zneg m else Zpos m in
      Some (if (0 <=? e)%Z then n * 2 ^ e else - (- n / 2 ^ (- e)))%Z
  | _ => None
  end.

(** The time and the output of the serial loop, without the fields. *)
Fixpoint time_loop (fuel n : nat) (t : float) (out : list float)
  : option (float * list float) :=
  if (t <? tEnd)%float then
    match fuel with
    | O => None
    | S fuel' => time_loop fuel' n (t + dt_of n)%float ((t + dt_of n)%float :: out)
    end
  else Some (t, out).

(** The time and the step count of the distributed loop, without the fields. *)
Fixpoint clock_loop (fuel n : nat) (t : float) (k : nat) : option (float * nat) :=
  if (t <? tEnd)%float then
    match fuel with
    | O => None
    | S fuel' => clock_loop fuel' n (t + dt_of n)%float (S k)
    end
  else Some (t, k).


(** A configuration error is reported: the run ends with a non-zero status
    without having taken a step. *)
Definition config_error_reported (sin : float → float) (pow : float → float → float)
    (n size rank : nat) : Prop :=
  ∃ fuel e w, Mpi.main sin pow fuel n size rank = Some (e, w) ∧ e ≠ 0%Z ∧ Mpi.steps w = 0.

(** ** Vocabulary of the invariants *)

(** The state of the serial run after [k] iterations of the loop body. *)
Definition after_steps (sin : float → float) (pow : float → float → float)
    (n k : nat) : Serial.sim :=
  Nat.iter k (Serial.step sin pow n) (Serial.main_init n).

(** What every iteration of the serial loop keeps: the mask, the dimensions,
    zeros in [Unew] on the edges and on the walls, zeros in [U] on the walls
    below row 0. *)
Definition run_inv (n : nat) (s : Serial.sim) : Prop :=
  Serial.mask s = Serial.build_mask n ∧
  is_grid n n (Serial.U s) ∧ is_grid n n (Serial.Uprev s) ∧ is_grid n n (Serial.Unew s) ∧
  length (Serial.xlin s) = n ∧
  (∀ i j, i < n → j < n → on_edge n i j ∨ rdb (Serial.build_mask n) i j = true →
     cellO (Serial.Unew s) i j = Some 0%float) ∧
  (∀ i j, i < n → j < n → i ≠ 0 → rdb (Serial.build_mask n) i j = true →
     cellO (Serial.U s) i j = Some 0%float).

(** What the serial loop keeps with respect to the row [k]: the rows from [k]
    on are still zero in [U] and in [Unew]. *)
Definition front_inv (n k : nat) (s : Serial.sim) : Prop :=
  run_inv n s ∧
  ∀ i j, k ≤ i < n → j < n →
    cellO (Serial.U s) i j = Some 0%float ∧ cellO (Serial.Unew s) i j = Some 0%float.

(** The state of process [rank] out of [size] after [k] iterations of the loop
    body. *)
Definition mpi_after_steps (sin : float → float) (pow : float → float → float)
    (n size rank k : nat) : Mpi.worker :=
  Nat.iter k (Mpi.step sin pow n) (Mpi.main_init n size rank).


(** The variables of two processes apart from [rank], [start_row] and
    [end_row] are the same. *)
Definition same_variables (w w' : Mpi.worker) : Prop :=
  Mpi.size w = Mpi.size w' ∧ Mpi.local_N w = Mpi.local_N w' ∧
  Mpi.U w = Mpi.U w' ∧ Mpi.Uprev w = Mpi.Uprev w' ∧ Mpi.Unew w = Mpi.Unew w' ∧
  Mpi.mask w = Mpi.mask w' ∧ Mpi.xlin w = Mpi.xlin w' ∧
  Mpi.t w = Mpi.t w' ∧ Mpi.steps w = Mpi.steps w'.

(** What every iteration of the loop of a process keeps: the dimensions and
    zeros in the first and the last local row. *)
Definition mpi_run_inv (n size : nat) (w : Mpi.worker) : Prop :=
  Mpi.local_N w = n / size ∧
  is_grid (n / size) n (Mpi.U w) ∧ is_grid (n / size) n (Mpi.Unew w) ∧
  (∀ i j, i < n / size → j < n → i = 0 ∨ i = n / size - 1 →
     cellO (Mpi.Unew w) i j = Some 0%float) ∧
  (∀ i j, i < n / size → 1 ≤ j < n → i = 0 ∨ i = n / size - 1 →
     cellO (Mpi.U w) i j = Some 0%float).

(** The sweep of [calculateLaplacian(U, U, ...)] on the vector itself: one
    cell, one row, all rows; [U0] is the copy taken on entry. *)
Definition sweep_cell (mask : grid bool) (fac : float) (U0 : grid float) (i j : nat)
    (V : grid float) : grid float :=
  if negb (rdb mask i j) then set_cell V i j (OpenMp.update_val V U0 fac i j) else V.
Definition sweep_row (n : nat) (mask : grid bool) (fac : float) (U0 : grid float)
    (i : nat) (V : grid float) : grid float :=
  for_loop 1 (n - 1) (sweep_cell mask fac U0 i) V.
Definition sweep (n : nat) (mask : grid bool) (fac : float) (U0 V : grid float)
  : grid float :=
  for_loop 1 (n - 1) (sweep_row n mask fac U0) V.

(** The cells the sweep assigns, and the cells a row-major loop has visited
    when it reaches [(i, j)]. *)
Definition swept (n : nat) (mask : grid bool) (a b : nat) : Prop :=
  1 ≤ a < n - 1 ∧ 1 ≤ b < n - 1 ∧ rdb mask a b = false.
Definition before (a b i j : nat) : Prop := a < i ∨ (a = i ∧ b < j).

(** The value of a swept cell: the upper and the left neighbour are read from
    [V], the lower and the right one from [U0]. *)
Definition gauss_seidel_val (fac : float) (U0 V : grid float) (a b : nat) : float :=
  (2 * rd U0 a b - rd U0 a b
   + fac * (rd V (a - 1) b + rd U0 (a + 1) b + rd V a (b - 1) + rd U0 a (b + 1)
            - 4 * rd U0 a b))%float.

Definition sweep_inv (n : nat) (mask : grid bool) (fac : float) (U0 : grid float)
    (i j : nat) (V : grid float) : Prop :=
  ∀ a b,
    (swept n mask a b ∧ before a b i j →
       cellO V a b = overwrite (gauss_seidel_val fac U0 V a b) (cellO U0 a b)) ∧
    (¬ (swept n mask a b ∧ before a b i j) → cellO V a b = cellO U0 a b).

(** The pixels assigned when the image loop reaches [(i, j)]. *)
Definition image_inv (n : nat) (mask : grid bool) (U : grid float)
    (image0 : grid Sfml.Color) (i j : nat) (image : grid Sfml.Color) : Prop :=
  ∀ a b,
    (a < n ∧ b < n ∧ before a b i j →
       ∃ col, Sfml.pixel (rdb mask a b) (rd U a b) = Some col ∧
              cellO image a b = overwrite col (cellO image0 a b)) ∧
    (¬ (a < n ∧ b < n ∧ before a b i j) → cellO image a b = cellO image0 a b).

(** The coordinate of column [i] computed by the loop of [initializeGrid], and
    the centre of cell [i] of a grid of 256 cells on [0, 1]: [(2 i + 1) / 512]. *)
Definition xlin_val (n i : nat) : float := (0.5 * dx_of n + of_int i * dx_of n)%float.
Definition centre (i : nat) : float := (of_int (2 * i + 1) / 512)%float.

(** ** Test inputs *)

(** A field of the run's size with a unit impulse at the open cell (100, 100),
    and one with the value 2^1023 there; a 3 x 3 field with a unit impulse in
    the middle. *)
Definition pulse : grid float := impulse N 100 100 1%float.
Definition huge_pulse : grid float := impulse N 100 100 0x1p+1023%float.
Definition unit_impulse : grid float := impulse 3 1 1 1%float.

(** ** Proof automation *)

(** Footprints: both directions are closed by [lia] once the bound variables
    are exposed and the witnesses are read off the equations. *)
Ltac foot_destruct :=
  repeat match goal with
  | H : ∃ _, _ |- _ => destruct H
  | H : _ ∧ _ |- _ => destruct H
  | H : _ ∨ _ |- _ => destruct H
  | H : False |- _ => destruct H
  | H : negb _ = true |- _ => apply negb_true_iff in H
  end; subst.
Ltac foot_build :=
  first
    [ lia
    | lazymatch goal with
      | |- ∃ _, _ => eexists; foot_build
      | |- _ ∧ _ => split; cycle 1; [foot_build | foot_build]
      | |- _ ∨ _ => first [left; foot_build | right; foot_build]
      | |- negb _ = true => apply negb_true_iff; assumption
      | |- _ = _ => first [reflexivity | assumption]
      end ].
Ltac foot :=
  intros ? ?; cbv beta; split; intros ?; foot_destruct; foot_build.

(** Quotients by a literal, as linear facts for [lia]. *)
Ltac div_facts :=
  repeat match goal with
  | |- context [?a / ?b] =>
      lazymatch goal with
      | _ : a = b * (a / b) + a mod b |- _ => fail
      | _ => pose proof (Nat.div_mod_eq a b);
             pose proof (Nat.mod_upper_bound a b ltac:(lia))
      end
  | _ : context [?a / ?b] |- _ =>
      lazymatch goal with
      | _ : a = b * (a / b) + a mod b |- _ => fail
      | _ => pose proof (Nat.div_mod_eq a b);
             pose proof (Nat.mod_upper_bound a b ltac:(lia))
      end
  end.

(** * Facts about vectors and loops *)

Section Writes.
Context {A : Type}.
Implicit Types (m : grid A) (v : A) (F G : grid A → grid A) (val : nat → nat → A).

Lemma overwrite_idemp v (o : option A) : overwrite v (overwrite v o) = overwrite v o.
Proof. by destruct o. Qed.

Lemma cellO_set_cell_eq m i j v :
  cellO (set_cell m i j v) i j = overwrite v (cellO m i j).
Proof.
  unfold cellO, set_cell. rewrite list_lookup_alter_eq.
  destruct (m !! i) as [row|]; simpl; [|done].
  destruct (row !! j) as [x|] eqn:E; simpl.
  - apply list_lookup_insert_eq. by eapply lookup_lt_Some.
  - rewrite list_insert_ge; [done|]. by apply lookup_ge_None.
Qed.

Lemma cellO_set_cell_ne m i j v i' j' :
  (i', j') ≠ (i, j) → cellO (set_cell m i j v) i' j' = cellO m i' j'.
Proof.
  intros Hne. unfold cellO, set_cell.
  destruct (decide (i = i')) as [->|Hi].
  - rewrite list_lookup_alter_eq. destruct (m !! i') as [row|]; simpl; [|done].
    apply list_lookup_insert_ne. congruence.
  - by rewrite list_lookup_alter_ne.
Qed.

Lemma writes_skip val : writes (λ m, m) (λ _ _, False) val.
Proof. intros m i j. split_and!; [done|done|by left]. Qed.

Lemma writes_set i0 j0 v val :
  val i0 j0 = v → writes (λ m, set_cell m i0 j0 v) (λ i j, i = i0 ∧ j = j0) val.
Proof.
  intros <- m i j. split_and!.
  - intros [-> ->]. apply cellO_set_cell_eq.
  - intros Hn. apply cellO_set_cell_ne. intros [= -> ->]. by apply Hn.
  - destruct (decide ((i, j) = (i0, j0))) as [[= -> ->]|Hne].
    + right. apply cellO_set_cell_eq.
    + left. by apply cellO_set_cell_ne.
Qed.

Lemma writes_comp F G W1 W2 val :
  writes F W1 val → writes G W2 val →
  writes (λ m, G (F m)) (λ i j, W1 i j ∨ W2 i j) val.
Proof.
  intros HF HG m i j.
  destruct (HF m i j) as (F1 & F2 & F3), (HG (F m) i j) as (G1 & G2 & G3).
  split_and!.
  - intros [H1|H2].
    + destruct G3 as [->| ->]; rewrite F1 by done; [done|apply overwrite_idemp].
    + rewrite G1 by done. destruct F3 as [->| ->]; [done|apply overwrite_idemp].
  - intros Hn. rewrite G2, F2; tauto.
  - destruct G3 as [->| ->], F3 as [->| ->]; rewrite ?overwrite_idemp; auto.
Qed.

Lemma writes_ext F W W' val :
  writes F W val → (∀ i j, W i j ↔ W' i j) → writes F W' val.
Proof.
  intros HF HW m i j. destruct (HF m i j) as (F1 & F2 & F3).
  split_and!; [intros ?%HW; auto|intros Hn; apply F2; by rewrite HW|done].
Qed.

Lemma writes_if (b : bool) F W val :
  writes F W val → writes (λ m, if b then F m else m) (λ i j, b = true ∧ W i j) val.
Proof.
  intros HF. destruct b.
  - eapply writes_ext; [exact HF|]. intros i j. tauto.
  - eapply writes_ext; [apply writes_skip|]. intros i j. split; [tauto|]. by intros [? _].
Qed.

Lemma writes_iter (body : nat → grid A → grid A) (Wk : nat → nat → nat → Prop)
    val lo n :
  (∀ k, lo ≤ k < lo + n → writes (body k) (Wk k) val) →
  writes (iter_from body lo n) (λ i j, ∃ k, lo ≤ k < lo + n ∧ Wk k i j) val.
Proof.
  revert lo. induction n as [|n IH]; intros lo Hb; simpl.
  - eapply writes_ext; [apply writes_skip|]. intros i j; split; [done|].
    intros (k & ? & _). lia.
  - eapply writes_ext.
    + apply (writes_comp (body lo) (iter_from body (S lo) n)).
      * apply Hb. lia.
      * apply IH. intros k Hk. apply Hb. lia.
    + intros i j. split.
      * intros [H|(k & Hk & H)]; [exists lo|exists k]; split; auto; lia.
      * intros (k & Hk & H). destruct (decide (k = lo)) as [->|]; [by left|].
        right. exists k. split; [lia|done].
Qed.

Lemma writes_for (body : nat → grid A → grid A) (Wk : nat → nat → nat → Prop)
    val lo hi :
  (∀ k, lo ≤ k < hi → writes (body k) (Wk k) val) →
  writes (for_loop lo hi body) (λ i j, ∃ k, lo ≤ k < hi ∧ Wk k i j) val.
Proof.
  intros Hb. unfold for_loop. eapply writes_ext.
  - apply writes_iter with (Wk := Wk). intros k Hk. apply Hb. lia.
  - intros i j. split; intros (k & Hk & H); exists k; (split; [lia|done]).
Qed.

(** An assignment never creates or removes a cell. *)
Lemma writes_is_Some F W val m i j :
  writes F W val → is_Some (cellO m i j) → is_Some (cellO (F m) i j).
Proof.
  intros HF [x Hx]. destruct (HF m i j) as (_ & _ & [->| ->]); rewrite Hx; simpl; eauto.
Qed.

Lemma cellO_mk_grid rows cols v i j :
  i < rows → j < cols → cellO (mk_grid rows cols v) i j = Some v.
Proof.
  intros Hi Hj. unfold cellO, mk_grid.
  rewrite lookup_replicate_2 by done. simpl. by apply lookup_replicate_2.
Qed.

Lemma is_grid_cell rows cols m i j :
  is_grid rows cols m → i < rows → j < cols → is_Some (cellO m i j).
Proof.
  intros [Hr Hc] Hi Hj. unfold cellO.
  destruct (lookup_lt_is_Some_2 m i) as [row Hrow]; [lia|].
  rewrite Hrow. simpl. apply lookup_lt_is_Some_2.
  rewrite Forall_forall in Hc. rewrite (Hc row); [done|].
  by eapply list_elem_of_lookup_2.
Qed.

Lemma is_grid_mk_grid rows cols v : is_grid rows cols (mk_grid rows cols v).
Proof.
  split; [apply length_replicate|].
  apply Forall_forall. intros r Hr%elem_of_replicate.
  destruct Hr as [-> _]. apply length_replicate.
Qed.
End Writes.

(** * Facts about binary64 arithmetic *)

Section FloatFacts.
Local Open Scope Z_scope.

Lemma canonical_fexp m e :
  canonical_mantissa prec emax m e = true →
  fexp prec emax (Zpos (digits2_pos m) + e) = e.
Proof. unfold canonical_mantissa. intros H. by apply Z.eqb_eq. Qed.

Lemma shr_fexp_canonical m e :
  canonical_mantissa prec emax m e = true →
  shr_fexp prec emax (Zpos m) e loc_Exact =
    ({| shr_m := Zpos m; shr_r := false; shr_s := false |}, e).
Proof.
  intros H. unfold shr_fexp. simpl Zdigits2.
  rewrite (canonical_fexp m e H), Z.sub_diag. reflexivity.
Qed.

Lemma binary_round_aux_canonical s m e :
  bounded prec emax m e = true →
  binary_round_aux prec emax s (Zpos m) e loc_Exact = S754_finite s m e.
Proof.
  unfold bounded. intros [Hc He]%andb_true_iff.
  unfold binary_round_aux. rewrite (shr_fexp_canonical m e Hc).
  cbn [shr_m loc_of_shr_record round_nearest_even].
  rewrite (shr_fexp_canonical m e Hc). cbn [shr_m]. rewrite He. reflexivity.
Qed.

Lemma binary_round_canonical s m e :
  bounded prec emax m e = true →
  binary_round prec emax s m e = S754_finite s m e.
Proof.
  intros Hb. unfold binary_round.
  assert (canonical_mantissa prec emax m e = true) as Hc
    by (unfold bounded in Hb; apply andb_true_iff in Hb; tauto).
  rewrite (canonical_fexp m e Hc). unfold shl_align. rewrite Z.sub_diag.
  by apply binary_round_aux_canonical.
Qed.

Lemma digits2_pos_shift52 m :
  Zpos (digits2_pos (Pos.mul 4503599627370496 m)) = Zpos (digits2_pos m) + 52.
Proof.
  assert (∀ p, Zpos (digits2_pos p~0) = Zpos (digits2_pos p) + 1) as E.
  { intros p. cbn [digits2_pos]. lia. }
  change (Pos.mul 4503599627370496 m) with (Pos.iter xO m 52).
  cbv [Pos.iter]. rewrite !E. lia.
Qed.

Lemma shr_1_iter52 m :
  SpecFloat.iter_pos shr_1 52%positive
    {| shr_m := Zpos (4503599627370496 * m); shr_r := false; shr_s := false |} =
    {| shr_m := Zpos m; shr_r := false; shr_s := false |}.
Proof. reflexivity. Qed.

Lemma shr_1_iter51 m :
  SpecFloat.iter_pos shr_1 51%positive
    {| shr_m := Zpos (4503599627370496 * m); shr_r := false; shr_s := false |} =
    {| shr_m := Zpos m~0; shr_r := false; shr_s := false |}.
Proof. reflexivity. Qed.

(** Doubling a finite double: a normal number keeps its mantissa and its
    exponent grows by one (overflowing to infinity at the top); a subnormal
    one has its mantissa doubled. *)
Lemma SF64mul_two s m e :
  bounded prec emax m e = true →
  SF64mul (S754_finite false 4503599627370496 (-51)) (S754_finite s m e) =
    if Z.eqb (Zpos (digits2_pos m)) 53 then
      if Z.leb (e + 1) 971 then S754_finite s m (e + 1) else S754_infinity s
    else S754_finite s (m~0) e.
Proof.
  intros Hb. pose proof Hb as [Hc He]%andb_true_iff.
  apply canonical_fexp in Hc. apply Z.leb_le in He.
  unfold fexp, emin in Hc. change (3 - emax - prec) with (-1074) in Hc.
  change prec with 53 in *. change emax with 1024 in *.
  unfold SF64mul, SFmul. cbn [xorb].
  unfold binary_round_aux, shr_fexp. cbn [Zdigits2 shr_record_of_loc].
  rewrite digits2_pos_shift52.
  set (d := Zpos (digits2_pos m)) in *.
  assert (0 < d) by (unfold d; lia).
  unfold fexp, emin. change (3 - emax - prec) with (-1074). change prec with 53.
  change emax with 1024. change (1024 - 53) with 971 in *.
  destruct (Z.eqb_spec d 53) as [Hd|Hd].
  - replace (Z.max (d + 52 + (-51 + e) - 53) (-1074) - (-51 + e)) with 52 by lia.
    cbn [shr]. rewrite shr_1_iter52.
    cbn [shr_m loc_of_shr_record round_nearest_even Zdigits2]. fold d.
    replace (Z.max (d + (-51 + e + 52) - 53) (-1074) - (-51 + e + 52)) with 0 by lia.
    cbn [shr shr_m]. replace (-51 + e + 52) with (e + 1) by lia. reflexivity.
  - replace (Z.max (d + 52 + (-51 + e) - 53) (-1074) - (-51 + e)) with 51 by lia.
    cbn [shr]. rewrite shr_1_iter51.
    cbn [shr_m loc_of_shr_record round_nearest_even Zdigits2 digits2_pos].
    rewrite Pos2Z.inj_succ. fold d.
    replace (Z.max (Z.succ d + (-51 + e + 51) - 53) (-1074) - (-51 + e + 51)) with 0 by lia.
    cbn [shr shr_m]. replace (-51 + e + 51) with e by lia.
    destruct (Z.leb_spec e 971); [reflexivity|lia].
Qed.

(** Subtracting a finite double from its double gives it back. *)
Lemma SF64sub_half s m m2 e e2 :
  bounded prec emax m e = true →
  (m2 = m ∧ e2 = e + 1) ∨ (m2 = (m~0)%positive ∧ e2 = e) →
  SF64sub (S754_finite s m2 e2) (S754_finite s m e) = S754_finite s m e.
Proof.
  intros Hb Hcase. unfold SF64sub, SFsub.
  assert (Z.min e2 e = e) as -> by lia.
  assert (fst (shl_align m2 e2 e) = (m~0)%positive) as ->.
  { unfold shl_align. destruct Hcase as [[-> ->]|[-> ->]].
    - replace (e - (e + 1)) with (-1) by lia. reflexivity.
    - rewrite Z.sub_diag. reflexivity. }
  assert (fst (shl_align m e e) = m) as ->.
  { unfold shl_align. rewrite Z.sub_diag. reflexivity. }
  destruct s; cbn [cond_Zopp].
  - replace (- Zpos m~0 - - Zpos m) with (Zneg m) by lia.
    cbn [binary_normalize]. by apply binary_round_canonical.
  - replace (Zpos m~0 - Zpos m) with (Zpos m) by lia.
    cbn [binary_normalize]. by apply binary_round_canonical.
Qed.

Lemma is_finite_SF x :
  is_finite x = true →
  match Prim2SF x with S754_zero _ | S754_finite _ _ _ => True | _ => False end.
Proof.
  unfold is_finite, is_nan, is_infinity. intros H.
  apply negb_true_iff, orb_false_iff in H. destruct H as [H1 H2].
  rewrite FloatAxioms.eqb_spec in H1. rewrite FloatAxioms.eqb_spec, abs_spec in H2.
  destruct (Prim2SF x) as [s|s| |s m e]; try exact I.
  - cbv in H2. discriminate.
  - cbv in H1. discriminate.
Qed.

(** [2 * x - x] is [x] for every double [x] other than [-0.0] whose double
    does not overflow. *)
Lemma double_minus_self x :
  is_finite (2 * x) = true → x ≠ (-0)%float → (2 * x - x)%float = x.
Proof.
  intros Hfin Hnz. apply Prim2SF_inj. rewrite sub_spec.
  apply is_finite_SF in Hfin. rewrite mul_spec in *.
  change (Prim2SF 2) with (S754_finite false 4503599627370496 (-51)) in *.
  pose proof (Prim2SF_valid x) as Hv.
  destruct (Prim2SF x) as [s|s| |s m e] eqn:Ex.
  - destruct s; [|reflexivity]. exfalso. apply Hnz. apply Prim2SF_inj. by rewrite Ex.
  - destruct Hfin.
  - destruct Hfin.
  - cbn [valid_binary] in Hv. rewrite (SF64mul_two s m e Hv) in *.
    destruct (Z.pos (digits2_pos m) =? 53)%Z.
    + destruct (e + 1 <=? 971)%Z; [|destruct Hfin].
      apply SF64sub_half; auto.
    + apply SF64sub_half; auto.
Qed.

(** A finite factor times zero, added to zero, is [+0.0]. *)
Lemma mul_zero_finite x : is_finite x = true → (0 + x * 0)%float = 0%float.
Proof.
  intros H%is_finite_SF. apply Prim2SF_inj. rewrite add_spec, mul_spec.
  change (Prim2SF 0) with (S754_zero false).
  destruct (Prim2SF x) as [[]|[]| |[] m e]; by try destruct H.
Qed.

(** The stencil of a cell whose neighbourhood is zero. *)
Lemma stencil_zero fac :
  is_finite fac = true →
  (2 * 0 - 0 + fac * (0 + 0 + 0 + 0 - 4 * 0))%float = 0%float.
Proof.
  intros H. change (2 * 0 - 0)%float with 0%float.
  change (0 + 0 + 0 + 0 - 4 * 0)%float with 0%float.
  by apply mul_zero_finite.
Qed.





(** Distinct doubles have distinct specifications. *)
Lemma float_neq x y : Prim2SF x ≠ Prim2SF y → x ≠ y.
Proof. intros H ->. by apply H. Qed.

Lemma opt_float_neq (a b : option float) : Prim2SF <$> a ≠ Prim2SF <$> b → a ≠ b.
Proof. intros H ->. by apply H. Qed.
End FloatFacts.

(** * The mask builder *)

Lemma mask_edges_writes n :
  writes (Serial.mask_edges n)
    (λ i j, (i = 0 ∧ j < n) ∨ (i = n - 1 ∧ j < n) ∨ (i < n ∧ j = 0) ∨ (i < n ∧ j = n - 1))
    (λ _ _, true).
Proof.
  unfold Serial.mask_edges. eapply writes_ext.
  - eapply writes_for; intros i Hi.
    do 3 (eapply (writes_comp _ (λ m, set_cell m _ _ _));
          [|eapply writes_set; reflexivity]).
    eapply writes_set; reflexivity.
  - foot.
Qed.

Lemma mask_barrier_writes n :
  writes (Serial.mask_barrier n) (λ i j, n / 4 ≤ i < 9 * n / 32 ∧ j < n - 1) (λ _ _, true).
Proof.
  unfold Serial.mask_barrier. eapply writes_ext.
  - eapply writes_for; intros i Hi. eapply writes_for; intros j Hj.
    eapply writes_set. reflexivity.
  - foot.
Qed.

Lemma mask_slits_writes n :
  writes (Serial.mask_slits n)
    (λ i j, 1 ≤ i < n - 1 ∧ (5 * n / 16 ≤ j < 3 * n / 8 ∨ 5 * n / 8 ≤ j < 11 * n / 16))
    (λ _ _, false).
Proof.
  unfold Serial.mask_slits. eapply writes_ext.
  - eapply writes_for; intros i Hi.
    eapply (writes_comp (for_loop _ _ _) (for_loop _ _ _));
      (eapply writes_for; intros j Hj; eapply writes_set; reflexivity).
  - foot.
Qed.

Lemma build_mask_unfold n :
  Serial.build_mask n =
  Serial.mask_slits n (Serial.mask_barrier n (Serial.mask_edges n (mk_grid n n false))).
Proof. reflexivity. Qed.

(** Every cell of the built mask: slit cells are open, the other cells of the
    edges and of the barrier are walls, the rest is open. *)
Lemma build_mask_cell n i j :
  i < n → j < n →
  (in_slit n i j → open_cell (Serial.build_mask n) i j) ∧
  (¬ in_slit n i j → on_edge n i j ∨ in_barrier n i j → wall (Serial.build_mask n) i j) ∧
  (¬ in_slit n i j → ¬ on_edge n i j → ¬ in_barrier n i j →
     open_cell (Serial.build_mask n) i j).
Proof.
  intros Hi Hj. unfold wall, open_cell. rewrite build_mask_unfold.
  set (m0 := mk_grid n n false).
  destruct (mask_slits_writes n (Serial.mask_barrier n (Serial.mask_edges n m0)) i j)
    as (S1 & S2 & _).
  destruct (mask_barrier_writes n (Serial.mask_edges n m0) i j) as (B1 & B2 & B3).
  destruct (mask_edges_writes n m0 i j) as (E1 & E2 & E3).
  assert (cellO m0 i j = Some false) as H0 by by apply cellO_mk_grid.
  rewrite H0 in *. cbv beta in *. cbn [overwrite] in *.
  assert (∃ e, cellO (Serial.mask_edges n m0) i j = Some e) as [e He]
    by (destruct E3 as [->| ->]; eauto).
  rewrite He in *. cbn [overwrite] in *.
  assert (∃ b, cellO (Serial.mask_barrier n (Serial.mask_edges n m0)) i j = Some b)
    as [b Hb] by (destruct B3 as [->| ->]; eauto).
  rewrite Hb in *. cbn [overwrite] in *.
  unfold in_slit, slit_column, on_edge, in_barrier.
  split_and!.
  - intros Hs. apply S1. lia.
  - intros Hs [H|H]; rewrite S2 by lia.
    + destruct B3 as [->| ->]; [|done]. apply E1. lia.
    + apply B1. lia.
  - intros Hs H1 H2. rewrite S2, B2, E2 by lia. done.
Qed.

(** Row 0 of the built mask is a wall in every column. *)
Lemma build_mask_row0 n j : j < n → rdb (Serial.build_mask n) 0 j = true.
Proof.
  intros Hj. destruct (build_mask_cell n 0 j) as (_ & H & _); [lia|done|].
  unfold rdb. rewrite H; [done| |left; unfold on_edge; lia].
  unfold in_slit. lia.
Qed.

(** C3, as stated, fails: at N = 256 the barrier cell (64, 80) lies in the
    first slit and is open, so the barrier band is not a wall in every column
    of [0, N-1); and at N = 3 the first slit range is [0, 1), which opens the
    edge cell (1, 0). *)
Lemma build_mask_contract_fails :
  ¬ barrier_solid 256 (Serial.build_mask 256) ∧ ¬ edges_walled 3 (Serial.build_mask 3).
Proof.
  split.
  - intros H. specialize (H 64 80). unfold wall in H.
    assert (cellO (Serial.build_mask 256) 64 80 = Some false) as E
      by (vm_compute; reflexivity).
    rewrite E in H. discriminate H; unfold in_barrier; simpl; lia.
  - intros H. specialize (H 1 0). unfold wall in H.
    assert (cellO (Serial.build_mask 3) 1 0 = Some false) as E
      by (vm_compute; reflexivity).
    rewrite E in H. discriminate H; unfold on_edge; lia.
Qed.

(** C3 (amended).  For every N other than 3, after [build_mask(N)] every cell
    of row 0, row N-1, column 0 and column N-1 is a wall; for every N, every
    cell with row in [N/4, 9N/32) and column in [0, N-1) that is outside the
    two slit column ranges is a wall; and in the rows [1, N-1) every cell
    whose column lies in [5N/16, 3N/8) or [5N/8, 11N/16) is non-wall. *)
Theorem build_mask_walls (n i j : nat) :
  i < n → j < n →
  (on_edge n i j → n ≠ 3 → wall (Serial.build_mask n) i j) ∧
  (in_barrier n i j → ¬ slit_column n j → wall (Serial.build_mask n) i j) ∧
  (in_slit n i j → open_cell (Serial.build_mask n) i j).
Proof.
  intros Hi Hj. destruct (build_mask_cell n i j Hi Hj) as (H1 & H2 & _).
  split_and!.
  - intros He Hn. apply H2; [|by left].
    unfold in_slit, slit_column, on_edge in *. div_facts. lia.
  - intros Hb Hs. apply H2; [|by right]. unfold in_slit. tauto.
  - exact H1.
Qed.

Lemma build_mask_walls_witness :
  wall (Serial.build_mask 256) 0 80 ∧ wall (Serial.build_mask 256) 64 100 ∧
  open_cell (Serial.build_mask 256) 64 80.
Proof.
  split_and!.
  - destruct (build_mask_walls 256 0 80) as (H & _ & _); [lia|lia|].
    apply H; [unfold on_edge; lia|lia].
  - destruct (build_mask_walls 256 64 100) as (_ & H & _); [lia|lia|].
    apply H; [unfold in_barrier|unfold slit_column]; simpl; lia.
  - destruct (build_mask_walls 256 64 80) as (_ & _ & H); [lia|lia|].
    apply H. unfold in_slit, slit_column. simpl. lia.
Defined.

(** * The mask of the distributed variant *)

Lemma iter_from_preserves {St} (P : St → Prop) (body : nat → St → St) lo n s :
  (∀ k s, P s → P (body k s)) → P s → P (iter_from body lo n s).
Proof.
  intros Hb. revert lo s. induction n as [|n IH]; intros lo s Hs; simpl; auto.
Qed.

Lemma length_set_cell {A} (m : grid A) i j v : length (set_cell m i j v) = length m.
Proof. apply length_alter. Qed.

Lemma mpi_mask_writes n local_N xl :
  writes (λ m, (Mpi.initializeGrid n m xl local_N).1)
    (λ i j, i < local_N ∧ (j = 0 ∨ j = n - 1)) (λ _ _, true).
Proof.
  unfold Mpi.initializeGrid. cbn [fst]. eapply writes_ext.
  - eapply writes_for; intros i Hi.
    eapply (writes_comp _ (λ m, set_cell m _ _ _)); eapply writes_set; reflexivity.
  - foot.
Qed.

Lemma mpi_mask_length n local_N xl (m : grid bool) :
  length (Mpi.initializeGrid n m xl local_N).1 = length m.
Proof.
  unfold Mpi.initializeGrid, for_loop. cbn [fst].
  apply (iter_from_preserves (λ m', length m' = length m)); [|done].
  intros k s Hs. by rewrite !length_set_cell.
Qed.

(** The mask of a process does not depend on its rank. *)
Lemma mpi_mask_main_init n size rank :
  Mpi.mask (Mpi.main_init n size rank) =
  (Mpi.initializeGrid n (mk_grid (n / size) n false) (replicate n 0%float) (n / size)).1.
Proof. reflexivity. Qed.

Lemma mpi_mask_cell n size rank i j :
  i < n / size → j < n →
  cellO (Mpi.mask (Mpi.main_init n size rank)) i j = Some (bool_decide (j = 0 ∨ j = n - 1)).
Proof.
  intros Hi Hj. rewrite mpi_mask_main_init.
  destruct (mpi_mask_writes n (n / size) (replicate n 0%float)
              (mk_grid (n / size) n false) i j) as (H1 & H2 & _).
  rewrite cellO_mk_grid in * by done. cbv beta in *. cbn [overwrite] in *.
  case_bool_decide as Hd.
  - apply H1. lia.
  - apply H2. lia.
Qed.

Lemma cellO_app {A} (m1 m2 : grid A) i j :
  cellO (m1 ++ m2) i j =
  if decide (i < length m1) then cellO m1 i j else cellO m2 (i - length m1) j.
Proof.
  unfold cellO. case_decide.
  - by rewrite lookup_app_l.
  - by rewrite lookup_app_r by lia.
Qed.

Lemma assembled_cell_gen n size (ranks : list nat) i j :
  i < length ranks * (n / size) → j < n →
  cellO (concat (Mpi.mask <$> (Mpi.main_init n size <$> ranks))) i j =
    Some (bool_decide (j = 0 ∨ j = n - 1)).
Proof.
  revert i. induction ranks as [|r ranks IH]; intros i Hi Hj; [simpl in Hi; lia|].
  rewrite !fmap_cons. cbn [concat]. rewrite cellO_app.
  assert (length (Mpi.mask (Mpi.main_init n size r)) = n / size) as ->.
  { rewrite mpi_mask_main_init, mpi_mask_length. apply length_replicate. }
  destruct (decide (i < n / size)) as [Hlt|Hge].
  - by apply mpi_mask_cell.
  - apply IH; [|done]. cbn [length] in Hi. lia.
Qed.

(** C4: the masks of the distributed variant on the grid of the run (N = 256)
    divided between two processes.  Stacked in rank order they are not the
    mask of the whole grid: the cell (0,1) of the top edge, the cell (255,1)
    of the bottom edge and the cell (64,100) of the barrier are walls of the
    whole-grid mask and open in the stacked one.  [initializeGrid] of
    [mpi/main.cpp] runs the column loop only; the loops of the other variants
    for the top and bottom edge, the barrier and the slits are missing. *)
Theorem mpi_mask_lacks_walls :
  wall (Serial.build_mask N) 0 1 ∧ open_cell (Mpi.assembled_mask N 2) 0 1 ∧
  wall (Serial.build_mask N) 255 1 ∧ open_cell (Mpi.assembled_mask N 2) 255 1 ∧
  wall (Serial.build_mask N) 64 100 ∧ open_cell (Mpi.assembled_mask N 2) 64 100 ∧
  Mpi.assembled_mask N 2 ≠ Serial.build_mask N.
Proof.
  split_and!; try (vm_compute; reflexivity).
  intros H. apply (f_equal (λ m, cellO m 0 1)) in H.
  vm_compute in H. discriminate H.
Qed.

(** X26.  The mask a process of the distributed variant computes does not
    depend on its rank: for every N and every number of processes, the masks
    stacked in rank order hold, in each of the size * (N / size) rows, [true]
    in column 0 and in column N-1 and [false] in every other column.  For N
    other than 3 each of these walls is a wall of the mask the serial
    [initializeGrid] builds for the whole grid. *)
Theorem assembled_mask_cell (n size i j : nat) :
  i < size * (n / size) → j < n →
  cellO (Mpi.assembled_mask n size) i j = Some (bool_decide (j = 0 ∨ j = n - 1)) ∧
  (n ≠ 3 → wall (Mpi.assembled_mask n size) i j → wall (Serial.build_mask n) i j).
Proof.
  intros Hi Hj.
  assert (cellO (Mpi.assembled_mask n size) i j = Some (bool_decide (j = 0 ∨ j = n - 1)))
    as E.
  { unfold Mpi.assembled_mask, Mpi.world_init. apply assembled_cell_gen; [|done].
    by rewrite length_seq. }
  split; [done|]. intros Hn. unfold wall at 1. rewrite E. intros [= Hd%bool_decide_eq_true].
  assert (i < n).
  { pose proof (Nat.Div0.mul_div_le n size). lia. }
  destruct (build_mask_cell n i j) as (_ & He & _); [done|done|].
  apply He; [|left; unfold on_edge; lia].
  unfold in_slit, slit_column. div_facts. lia.
Qed.

Lemma assembled_mask_cell_witness :
  cellO (Mpi.assembled_mask 256 2) 200 0 = Some true ∧
  wall (Serial.build_mask 256) 200 0.
Proof.
  destruct (assembled_mask_cell 256 2 200 0) as [H1 H2]; [simpl; lia|lia|].
  split; [exact H1|]. apply H2; [lia|exact H1].
Defined.

(** * The stencil *)

Lemma updateLaplacian_writes n U mask fac :
  writes (λ Unew, Serial.updateLaplacian n U Unew mask fac)
    (λ i j, 1 ≤ i < n - 1 ∧ 1 ≤ j < n - 1 ∧ rdb mask i j = false)
    (Serial.update_val U fac).
Proof.
  unfold Serial.updateLaplacian. eapply writes_ext.
  - eapply writes_for; intros i Hi. eapply writes_for; intros j Hj.
    eapply (writes_if _ (λ m, set_cell m _ _ _)). eapply writes_set. reflexivity.
  - foot.
Qed.

Lemma calculateLaplacian_writes n U Uprev mask fac local_N :
  writes (λ Unew, Mpi.calculateLaplacian n U Uprev mask Unew fac local_N)
    (λ i j, 1 ≤ i < local_N - 1 ∧ 1 ≤ j < n - 1 ∧ rdb mask i j = false)
    (Mpi.update_val U Uprev fac).
Proof.
  unfold Mpi.calculateLaplacian. eapply writes_ext.
  - eapply writes_for; intros i Hi. eapply writes_for; intros j Hj.
    eapply (writes_if _ (λ m, set_cell m _ _ _)). eapply writes_set. reflexivity.
  - foot.
Qed.

(** What [updateLaplacian] leaves in a cell of [Unew]. *)
Lemma updateLaplacian_cell n U Unew mask fac i j :
  (1 ≤ i < n - 1 → 1 ≤ j < n - 1 → rdb mask i j = false →
     cellO (Serial.updateLaplacian n U Unew mask fac) i j =
       overwrite (Serial.update_val U fac i j) (cellO Unew i j)) ∧
  (¬ (1 ≤ i < n - 1 ∧ 1 ≤ j < n - 1) ∨ rdb mask i j = true →
     cellO (Serial.updateLaplacian n U Unew mask fac) i j = cellO Unew i j).
Proof.
  destruct (updateLaplacian_writes n U mask fac Unew i j) as (H1 & H2 & _).
  split.
  - intros. by apply H1.
  - intros H. apply H2. destruct (rdb mask i j); intuition (lia || congruence).
Qed.

(** The serial stencil is the three-layer formula with the current layer in
    the place of the previous one. *)
Lemma update_val_leapfrog U fac i j :
  Serial.update_val U fac i j = leapfrog_val U U fac i j.
Proof. reflexivity. Qed.

(** The sibling [calculateLaplacian] of the distributed variant does read the
    previous layer: it writes [2*U - Uprev + fac * laplacian] to every
    unmasked cell of the rows [1, local_N-1) and columns [1, N-1), and leaves
    every other cell as it was. *)
Lemma calculateLaplacian_cell n U Uprev mask Unew fac local_N i j :
  (1 ≤ i < local_N - 1 → 1 ≤ j < n - 1 → rdb mask i j = false →
     cellO (Mpi.calculateLaplacian n U Uprev mask Unew fac local_N) i j =
       overwrite (2 * rd U i j - rd Uprev i j
                  + fac * (rd U i (j - 1) + rd U i (j + 1)
                           + rd U (i - 1) j + rd U (i + 1) j - 4 * rd U i j))%float
                 (cellO Unew i j)) ∧
  (¬ (1 ≤ i < local_N - 1 ∧ 1 ≤ j < n - 1) ∨ rdb mask i j = true →
     cellO (Mpi.calculateLaplacian n U Uprev mask Unew fac local_N) i j = cellO Unew i j).
Proof.
  destruct (calculateLaplacian_writes n U Uprev mask fac local_N Unew i j) as (H1 & H2 & _).
  split.
  - intros. by apply H1.
  - intros H. apply H2. destruct (rdb mask i j); intuition (lia || congruence).
Qed.

(** Evaluation of one cell of [updateLaplacian] on the grid of the run. *)
Lemma updateLaplacian_at U Unew mask fac0 i j x :
  1 ≤ i < N - 1 → 1 ≤ j < N - 1 → rdb mask i j = false → cellO Unew i j = Some x →
  cellO (Serial.updateLaplacian N U Unew mask fac0) i j = Some (Serial.update_val U fac0 i j).
Proof.
  intros Hi Hj Hm Hx. destruct (updateLaplacian_cell N U Unew mask fac0 i j) as [H _].
  by rewrite H, Hx.
Qed.

(** C1: the serial and unit-test [updateLaplacian] evaluated on the grid of the
    run (N = 256, built mask, the factor of [main]) with a current field that
    is zero except for the value 1 at the open cell (100, 100): it writes
    -(1 + 2^-51) there, where the three-layer formula with a zero previous
    field gives -2^-51.  The function has no parameter for the previous
    layer and subtracts the current value in its place. *)
Theorem updateLaplacian_ignores_previous :
  cellO (Serial.updateLaplacian N pulse (mk_grid N N 0%float) (Serial.build_mask N) fac)
    100 100 = Some (-0x1.0000000000002p+0)%float ∧
  leapfrog_val pulse (mk_grid N N 0%float) fac 100 100 = (-0x1p-51)%float ∧
  leapfrog_val pulse pulse fac 100 100 = (-0x1.0000000000002p+0)%float.
Proof.
  split_and!.
  - rewrite (updateLaplacian_at _ _ _ _ _ _ 0%float); try (unfold N; lia).
    + vm_compute. reflexivity.
    + vm_compute. reflexivity.
    + vm_compute. reflexivity.
  - vm_compute. reflexivity.
  - vm_compute. reflexivity.
Qed.

(** ** The two-layer reading of the serial stencil *)

(** A step of the serial loop computes the same fields whatever the previous
    layer holds. *)
Lemma step_ignores_Uprev sin pow n (s : Serial.sim) (P : grid float) :
  Serial.U (Serial.step sin pow n (with_Uprev s P)) = Serial.U (Serial.step sin pow n s) ∧
  Serial.Unew (Serial.step sin pow n (with_Uprev s P)) = Serial.Unew (Serial.step sin pow n s).
Proof. split; reflexivity. Qed.

(** C10, as stated, fails: on the grid of the run, with the value 2^1023 at
    the open cell (100, 100) of a zero field, doubling overflows and
    [updateLaplacian] writes NaN, where the two-layer scheme gives minus
    infinity. *)
Lemma two_layer_overflow :
  cellO (Serial.updateLaplacian N huge_pulse (mk_grid N N 0%float) (Serial.build_mask N) fac)
    100 100
  ≠ Some (two_layer_val huge_pulse fac 100 100).
Proof.
  rewrite (updateLaplacian_at _ _ _ _ _ _ 0%float); try (unfold N; lia).
  - apply opt_float_neq. vm_compute. discriminate.
  - vm_compute. reflexivity.
  - vm_compute. reflexivity.
Qed.

(** C10 (amended).  The serial and unit-test stencil update is independent of
    the previous time layer (the field after a step of the loop is the same
    whatever [Uprev] holds), and for every unmasked interior cell whose value
    U[i][j] is not -0.0 and whose double 2*U[i][j] is finite (does not
    overflow) it writes Unew[i][j] = U[i][j] + fac*(U[i-1][j] + U[i+1][j] +
    U[i][j-1] + U[i][j+1] - 4*U[i][j]), the value of the two-layer scheme. *)
Theorem updateLaplacian_two_layer (n : nat) (U Unew : grid float) (mask : grid bool)
    (fac : float) (i j : nat) :
  1 ≤ i < n - 1 → 1 ≤ j < n - 1 → rdb mask i j = false →
  is_Some (cellO Unew i j) →
  is_finite (2 * rd U i j) = true → rd U i j ≠ (-0)%float →
  cellO (Serial.updateLaplacian n U Unew mask fac) i j = Some (two_layer_val U fac i j) ∧
  ∀ sin pow s P,
    Serial.U (Serial.step sin pow n (with_Uprev s P)) = Serial.U (Serial.step sin pow n s).
Proof.
  intros Hi Hj Hm [x Hx] Hfin Hnz. split; [|intros; apply step_ignores_Uprev].
  destruct (updateLaplacian_cell n U Unew mask fac i j) as [H _].
  rewrite H, Hx by done. cbn [overwrite]. f_equal.
  unfold Serial.update_val, two_layer_val. cbv zeta.
  by rewrite double_minus_self.
Qed.

Lemma updateLaplacian_two_layer_witness :
  cellO (Serial.updateLaplacian 3 unit_impulse (mk_grid 3 3 0%float)
           (mk_grid 3 3 false) 0.5%float) 1 1
  = Some (two_layer_val unit_impulse 0.5%float 1 1).
Proof.
  eapply (updateLaplacian_two_layer 3 unit_impulse (mk_grid 3 3 0%float)
            (mk_grid 3 3 false) 0.5%float 1 1); try lia.
  - reflexivity.
  - vm_compute. eauto.
  - reflexivity.
  - apply float_neq. vm_compute. discriminate.
Defined.

(** ** Locality of the stencil *)










(** * Boundary conditions *)

Lemma bc_zero_writes n mask :
  (∀ k, k < n → rdb mask 0 k = true) →
  writes (Serial.bc_zero n mask)
    (λ i j, (i = n - 1 ∧ j < n) ∨ (i = 0 ∧ j < n) ∨ (i < n ∧ j = n - 1) ∨ (i < n ∧ j = 0))
    (λ _ _, 0%float).
Proof.
  intros Hrow0. unfold Serial.bc_zero. eapply writes_ext.
  - eapply writes_for; intros i Hi.
    eapply (writes_if _ (λ U, set_cell (set_cell (set_cell (set_cell U _ _ _) _ _ _) _ _ _) _ _ _)).
    do 3 (eapply (writes_comp _ (λ m, set_cell m _ _ _));
          [|eapply writes_set; reflexivity]).
    eapply writes_set; reflexivity.
  - intros i j. cbv beta. split.
    + intros ?. foot_destruct; foot_build.
    + assert (∀ k, k < n →
        rdb mask k 0 || rdb mask k (n - 1) || rdb mask 0 k || rdb mask (n - 1) k = true) as Hc.
      { intros k Hk. rewrite (Hrow0 k Hk). by rewrite !orb_true_r. }
      intros [[-> ?]|[[-> ?]|[[? ->]|[? ->]]]].
      * exists j. split; [lia|]. split; [by apply Hc|]. tauto.
      * exists j. split; [lia|]. split; [by apply Hc|]. tauto.
      * exists i. split; [lia|]. split; [by apply Hc|]. tauto.
      * exists i. split; [lia|]. split; [by apply Hc|]. tauto.
Qed.

Lemma bc_source_writes sin pow n t xlin :
  writes (Serial.bc_source sin pow n t xlin) (λ i j, i = 0 ∧ j < n)
    (λ _ j, Serial.source sin pow t xlin j).
Proof.
  unfold Serial.bc_source. eapply writes_ext.
  - eapply writes_for; intros i Hi. eapply writes_set. reflexivity.
  - foot.
Qed.

(** The field after [applyBoundaryConditions] with the built mask: row 0 holds
    the source, the rest of the three other edges is zero. *)
Lemma applyBoundaryConditions_cell sin pow n U t xlin i j :
  is_grid n n U → i < n → j < n →
  cellO (Serial.applyBoundaryConditions sin pow n U (Serial.build_mask n) t xlin) i j =
    if decide (i = 0) then Some (Serial.source sin pow t xlin j)
    else if decide (i = n - 1 ∨ j = 0 ∨ j = n - 1) then Some 0%float
    else cellO U i j.
Proof.
  intros HU Hi Hj. unfold Serial.applyBoundaryConditions.
  destruct (is_grid_cell n n U i j HU Hi Hj) as [u Hu].
  destruct (bc_source_writes sin pow n t xlin
              (Serial.bc_zero n (Serial.build_mask n) U) i j) as (S1 & S2 & _).
  destruct (bc_zero_writes n (Serial.build_mask n) (build_mask_row0 n) U i j)
    as (Z1 & Z2 & Z3).
  rewrite Hu in *. cbn [overwrite] in *.
  destruct (decide (i = 0)) as [->|Hi0].
  - rewrite S1 by done. by destruct Z3 as [->| ->].
  - rewrite S2 by lia. case_decide.
    + apply Z1. lia.
    + apply Z2. lia.
Qed.

(** The contract holds exactly when the source vanishes at both corners. *)
Lemma bc_contract_iff sin pow n U t xlin :
  is_grid n n U → 1 ≤ n →
  bc_contract sin pow n t xlin
    (Serial.applyBoundaryConditions sin pow n U (Serial.build_mask n) t xlin) ↔
  Serial.source sin pow t xlin 0 = 0%float ∧ Serial.source sin pow t xlin (n - 1) = 0%float.
Proof.
  intros HU Hn. unfold bc_contract. split.
  - intros H. destruct (H 0) as (H1 & H2 & _); [lia|].
    rewrite applyBoundaryConditions_cell in H1, H2 by (done || lia).
    rewrite decide_True in H1, H2 by done. by simplify_eq.
  - intros [H0 H1] i Hi. rewrite !applyBoundaryConditions_cell by (done || lia).
    destruct (decide (n - 1 = 0)) as [Hn1|Hn1].
    + assert (i = 0) as -> by lia. rewrite Hn1 in *.
      rewrite !decide_True by done. by rewrite H0.
    + split_and!; repeat case_decide; subst; rewrite ?H0, ?H1; (done || lia).
Qed.

(** C6, as stated, fails: the corner cells (0,0) and (0,N-1) belong to the
    source row, which is written last, so they hold the source value and not
    0.0.  On the grid of the run at t = 1/32 the contract holds exactly for
    the library functions whose source term vanishes at both corners; it cannot
    hold whatever they are, and fails for every sine that does not vanish at
    20*pi*t and at pi*xlin[0]. *)
Lemma bc_contract_fails :
  let t0 := 0.03125%float in
  let x0 := init_xlin N (replicate N 0%float) in
  (¬ ∀ (sin : float → float) (pow : float → float → float),
       bc_contract sin pow N t0 x0
         (Serial.applyBoundaryConditions sin pow N (mk_grid N N 0%float)
            (Serial.build_mask N) t0 x0)) ∧
  (∀ (sin : float → float) (pow : float → float → float),
     bc_contract sin pow N t0 x0
       (Serial.applyBoundaryConditions sin pow N (mk_grid N N 0%float)
          (Serial.build_mask N) t0 x0) ↔
     (sin (20 * M_PI * t0) * pow (sin (M_PI * 0.001953125)) 2 = 0 ∧
      sin (20 * M_PI * t0) * pow (sin (M_PI * 0.998046875)) 2 = 0)%float).
Proof.
  intros t0 x0.
  assert (∀ (sin : float → float) (pow : float → float → float),
     bc_contract sin pow N t0 x0
       (Serial.applyBoundaryConditions sin pow N (mk_grid N N 0%float)
          (Serial.build_mask N) t0 x0) ↔
     (sin (20 * M_PI * t0) * pow (sin (M_PI * 0.001953125)) 2 = 0 ∧
      sin (20 * M_PI * t0) * pow (sin (M_PI * 0.998046875)) 2 = 0)%float) as Hiff.
  { intros sin pow.
    rewrite bc_contract_iff; [|apply is_grid_mk_grid|unfold N; lia].
    unfold Serial.source.
    assert (rdv x0 0 = 0.001953125%float) as -> by (vm_compute; reflexivity).
    assert (rdv x0 (N - 1) = 0.998046875%float) as -> by (vm_compute; reflexivity).
    done. }
  split; [|exact Hiff].
  intros H. specialize (H (λ _, 1%float) (λ x _, x)). apply Hiff in H as [H0 _].
  revert H0. apply float_neq. vm_compute. discriminate.
Qed.

(** C6 (amended).  After [applyBoundaryConditions] is run at time t on the
    full grid with the built mask: U[0][i] = sin(20*pi*t) * sin(pi*xlin[i])^2
    for every i, corners included; U[i][0] = U[i][N-1] = 0.0 for every i >= 1;
    and U[N-1][i] = 0.0 for every i when N >= 2. *)
Theorem applyBoundaryConditions_edges (sin : float → float) (pow : float → float → float)
    (n : nat) (U : grid float) (t : float) (xlin : list float) (i : nat) :
  is_grid n n U → i < n →
  let U' := Serial.applyBoundaryConditions sin pow n U (Serial.build_mask n) t xlin in
  cellO U' 0 i = Some (sin (20 * M_PI * t) * pow (sin (M_PI * rdv xlin i)) 2)%float ∧
  (1 ≤ i → cellO U' i 0 = Some 0%float ∧ cellO U' i (n - 1) = Some 0%float) ∧
  (2 ≤ n → cellO U' (n - 1) i = Some 0%float).
Proof.
  intros HU Hi U'. unfold U'. split_and!.
  - rewrite applyBoundaryConditions_cell by (done || lia).
    rewrite decide_True by done. reflexivity.
  - intros H1. rewrite !applyBoundaryConditions_cell by (done || lia).
    split; repeat case_decide; (done || lia).
  - intros H2. rewrite applyBoundaryConditions_cell by (done || lia).
    rewrite decide_False by lia. rewrite decide_True by lia. reflexivity.
Qed.

Lemma applyBoundaryConditions_edges_witness :
  let U' := Serial.applyBoundaryConditions (λ x, x) (λ x _, x) 4 (mk_grid 4 4 1%float)
              (Serial.build_mask 4) 0.03125%float (init_xlin 4 (replicate 4 0%float)) in
  cellO U' 2 0 = Some 0%float ∧ cellO U' 2 3 = Some 0%float ∧ cellO U' 3 2 = Some 0%float.
Proof.
  intros U'.
  destruct (applyBoundaryConditions_edges (λ x, x) (λ x _, x) 4 (mk_grid 4 4 1%float)
              0.03125%float (init_xlin 4 (replicate 4 0%float)) 2) as (_ & H1 & H2);
    [apply is_grid_mk_grid|lia|].
  destruct H1 as [Ha Hb]; [lia|]. split_and!; [exact Ha|exact Hb|apply H2; lia].
Defined.

(** * The time-stepping driver *)

Lemma main_loop_time sin pow fuel n s :
  (λ s', (Serial.t s', Serial.out s')) <$> Serial.main_loop sin pow fuel n s =
  time_loop fuel n (Serial.t s) (Serial.out s).
Proof.
  revert s. induction fuel as [|fuel IH]; intros s; simpl;
    destruct (Serial.t s <? tEnd)%float; rewrite ?IH; done.
Qed.

Lemma main_loop_more_fuel sin pow fuel k n s s' :
  Serial.main_loop sin pow fuel n s = Some s' →
  Serial.main_loop sin pow (fuel + k) n s = Some s'.
Proof.
  revert s. induction fuel as [|fuel IH]; intros s; simpl.
  - destruct k; simpl; destruct (Serial.t s <? tEnd)%float; done.
  - destruct (Serial.t s <? tEnd)%float; [apply IH|done].
Qed.

(** The run of the loop from any state with t = 0 and nothing printed. *)
Lemma main_loop_from_zero sin pow (s0 : Serial.sim) :
  Serial.t s0 = 0%float → Serial.out s0 = [] →
  ∃ s, (∀ fuel, 725 ≤ fuel → Serial.main_loop sin pow fuel N s0 = Some s) ∧
       Serial.main_loop sin pow 724 N s0 = None ∧
       length (Serial.out s) = 725 ∧
       Zceil (tEnd / dt) = Some (Z.of_nat (length (Serial.out s))) ∧
       (tEnd <=? Serial.t s)%float = true.
Proof.
  intros Ht0 Hout0.
  pose proof (main_loop_time sin pow 725 N s0) as H725.
  pose proof (main_loop_time sin pow 724 N s0) as H724.
  rewrite Ht0, Hout0 in H725, H724.
  assert (time_loop 724 N 0 [] = None) as E724 by (vm_compute; reflexivity).
  assert (option_map (λ p, (length p.2, (tEnd <=? p.1)%float)) (time_loop 725 N 0 [])
          = Some (725, true)) as E725 by (vm_compute; reflexivity).
  rewrite E724 in H724. clear E724.
  destruct (time_loop 725 N 0 []) as [[tf outf]|]; [|done].
  injection E725 as Hlen Ht. cbn [fst snd] in Hlen, Ht.
  destruct (Serial.main_loop sin pow 725 N s0) as [s|] eqn:E; [|done].
  injection H725 as Hts Houts. rewrite <- Houts in Hlen. rewrite <- Hts in Ht.
  exists s. split_and!.
  - intros fuel Hf. replace fuel with (725 + (fuel - 725)) by lia.
    by apply main_loop_more_fuel.
  - by destruct (Serial.main_loop sin pow 724 N s0).
  - done.
  - rewrite Hlen. vm_compute. reflexivity.
  - done.
Qed.

(** C7.  With N = 256, boxsize = 1.0, c = 1.0, tEnd = 2.0 the loop of [main]
    terminates: with 725 units of fuel or more it ends in a state in which
    exactly 725 = ceil(tEnd/dt) steps have been taken (one value printed per
    step) and t >= tEnd; 724 steps are not enough. *)
Theorem main_loop_terminates (sin : float → float) (pow : float → float → float) :
  ∃ s, (∀ fuel, 725 ≤ fuel →
          Serial.main_loop sin pow fuel N (Serial.main_init N) = Some s) ∧
       Serial.main_loop sin pow 724 N (Serial.main_init N) = None ∧
       length (Serial.out s) = 725 ∧
       Zceil (tEnd / dt) = Some (Z.of_nat (length (Serial.out s))) ∧
       (tEnd <=? Serial.t s)%float = true.
Proof. apply main_loop_from_zero; reflexivity. Qed.

(** * The time step and the CFL bound *)

(** C5, as stated, fails in double arithmetic: the computed ratio c*dt/dx is
    the double sqrt(2)/2 = 6369051672525773 * 2^-53, which is greater than the
    double 1/sqrt(2), and also greater than the real number 1/sqrt(2)
    (its square exceeds 1/2). *)
Lemma cfl_bound_exceeded :
  (cfl_ratio <=? cfl_bound)%float = false ∧
  Prim2SF cfl_ratio = S754_finite false 6369051672525773 (-53) ∧
  (2 ^ 105 < 6369051672525773 ^ 2)%Z.
Proof. split_and!; [vm_compute; reflexivity..|]. by vm_compute. Qed.

(** C5 (amended).  With dx = boxsize/N = 1/256 and c = 1, the time step
    dt = (sqrt(2)/2) * dx / c gives c*dt/dx = sqrt(2)/2 exactly, which is the
    double next above 1/sqrt(2): the CFL bound c*dt/dx <= 1/sqrt(2) holds up
    to one unit in the last place, and fac = (c*dt/dx)^2 is the double next
    above 1/2. *)
Theorem cfl_ratio_value :
  cfl_ratio = (sqrt 2 / 2)%float ∧ cfl_ratio = next_up cfl_bound ∧
  fac = next_up 0.5%float.
Proof. split_and!; vm_compute; reflexivity. Qed.

(** * The distributed driver *)

Lemma mpi_main_loop_clock sin pow fuel n w :
  (λ w', (Mpi.t w', Mpi.steps w')) <$> Mpi.main_loop sin pow fuel n w =
  clock_loop fuel n (Mpi.t w) (Mpi.steps w).
Proof.
  revert w. induction fuel as [|fuel IH]; intros w; simpl;
    destruct (Mpi.t w <? tEnd)%float; rewrite ?IH; done.
Qed.

Lemma mpi_main_loop_more_fuel sin pow fuel k n w w' :
  Mpi.main_loop sin pow fuel n w = Some w' →
  Mpi.main_loop sin pow (fuel + k) n w = Some w'.
Proof.
  revert w. induction fuel as [|fuel IH]; intros w; simpl.
  - destruct k; simpl; destruct (Mpi.t w <? tEnd)%float; done.
  - destruct (Mpi.t w <? tEnd)%float; [apply IH|done].
Qed.

(** The loop of a process from t = 0: 725 steps, whatever its band. *)
Lemma mpi_main_loop_from_zero sin pow (w0 : Mpi.worker) :
  Mpi.t w0 = 0%float → Mpi.steps w0 = 0 →
  ∃ w, Mpi.main_loop sin pow 725 N w0 = Some w ∧ Mpi.steps w = 725 ∧
       (tEnd <=? Mpi.t w)%float = true ∧ Mpi.local_N w = Mpi.local_N w0.
Proof.
  intros Ht0 Hs0.
  assert (∀ fuel w w', Mpi.main_loop sin pow fuel N w = Some w' →
                       Mpi.local_N w' = Mpi.local_N w) as Hloc.
  { induction fuel as [|fuel IH]; intros w w'; simpl;
      destruct (Mpi.t w <? tEnd)%float; try done; try by intros [= ->].
    intros H%IH. by rewrite H. }
  pose proof (mpi_main_loop_clock sin pow 725 N w0) as H725.
  rewrite Ht0, Hs0 in H725.
  assert (option_map (λ p, (p.2, (tEnd <=? p.1)%float)) (clock_loop 725 N 0 0)
          = Some (725, true)) as E725 by (vm_compute; reflexivity).
  destruct (clock_loop 725 N 0 0) as [[tf k]|]; [|done].
  injection E725 as Hk Ht. cbn [fst snd] in Hk, Ht.
  destruct (Mpi.main_loop sin pow 725 N w0) as [w|] eqn:E; [|done].
  injection H725 as Htw Hsw. rewrite <- Hsw in Hk. rewrite <- Htw in Ht.
  exists w. split_and!; try done. by eapply Hloc.
Qed.

(** [main] returns 0 whenever it returns. *)
Lemma mpi_main_status sin pow fuel n size rank e w :
  Mpi.main sin pow fuel n size rank = Some (e, w) → e = 0%Z.
Proof.
  unfold Mpi.main. destruct (Mpi.main_loop _ _ _ _ _); simpl; [|done]. by intros [= <- _].
Qed.

(** C9, as stated, fails: N = 256 is not divisible by 3, and yet, whatever the C
    library computes, process 0 of 3 gets a band of 85 rows (3 * 85 = 255
    rows in all, row 255 belongs to nobody), takes its 725 steps and returns
    0; no run reports a configuration error. *)
Lemma indivisible_rows_truncated :
  N mod 3 ≠ 0 ∧
  (∀ sin pow, ∃ w, Mpi.main sin pow 725 N 3 0 = Some (0%Z, w) ∧
                   Mpi.steps w = 725 ∧ Mpi.local_N w = 85 ∧ 3 * Mpi.local_N w < N) ∧
  ¬ ∃ sin pow, config_error_reported sin pow N 3 0.
Proof.
  split_and!.
  - by vm_compute.
  - intros sin pow.
    destruct (mpi_main_loop_from_zero sin pow (Mpi.main_init N 3 0))
      as (w & Hw & Hs & _ & Hl); [reflexivity..|].
    exists w. unfold Mpi.main. rewrite Hw. simpl.
    split_and!; [done|done|by rewrite Hl|rewrite Hl; vm_compute; lia].
  - intros (sin & pow & fuel & e & w & Hmain & He & _).
    by apply mpi_main_status in Hmain.
Qed.

(** C9 (amended).  In the distributed variant nothing checks that N is
    divisible by the number of processes: for every N, size and rank, Init
    gives the process a band of N / size rows (the quotient rounded down), so
    the last N mod size rows of the grid belong to no process, and a run that
    returns returns the status 0. *)
Theorem mpi_init_truncates (n size rank : nat) :
  Mpi.local_N (Mpi.main_init n size rank) = n / size ∧
  length (Mpi.U (Mpi.main_init n size rank)) = n / size ∧
  size * Mpi.local_N (Mpi.main_init n size rank) + n mod size = n ∧
  ∀ sin pow fuel e w, Mpi.main sin pow fuel n size rank = Some (e, w) → e = 0%Z.
Proof.
  split_and!.
  - reflexivity.
  - apply length_replicate.
  - change (Mpi.local_N (Mpi.main_init n size rank)) with (n / size).
    symmetry. apply Nat.div_mod_eq.
  - intros sin pow fuel e w. apply mpi_main_status.
Qed.

(** * The loop body of a process *)



(** * Dimensions *)

Create HintDb grid discriminated.

Lemma is_grid_set_cell {A} rows cols (m : grid A) i j v :
  is_grid rows cols m → is_grid rows cols (set_cell m i j v).
Proof.
  intros [Hr Hc]. split.
  - by rewrite length_set_cell.
  - unfold set_cell. apply Forall_alter; [done|].
    intros row _ Hlen. by rewrite length_insert.
Qed.

Lemma is_grid_for_loop {A} rows cols lo hi (body : nat → grid A → grid A) m :
  (∀ k m, is_grid rows cols m → is_grid rows cols (body k m)) →
  is_grid rows cols m → is_grid rows cols (for_loop lo hi body m).
Proof. intros Hb Hm. unfold for_loop. by apply iter_from_preserves. Qed.

Lemma is_grid_if {A} rows cols (b : bool) (m m' : grid A) :
  is_grid rows cols m → is_grid rows cols m' → is_grid rows cols (if b then m else m').
Proof. by destruct b. Qed.

#[local] Hint Resolve is_grid_mk_grid is_grid_set_cell is_grid_for_loop is_grid_if : grid.

(** Two grids of the same dimensions with the same cells are equal. *)
Lemma grid_ext {A} rows cols (m m' : grid A) :
  is_grid rows cols m → is_grid rows cols m' →
  (∀ i j, i < rows → j < cols → cellO m i j = cellO m' i j) → m = m'.
Proof.
  intros [Hr Hc] [Hr' Hc'] Hcell. apply list_eq. intros i.
  destruct (decide (i < rows)) as [Hi|Hi].
  - destruct (lookup_lt_is_Some_2 m i) as [row Hrow]; [lia|].
    destruct (lookup_lt_is_Some_2 m' i) as [row' Hrow']; [lia|].
    rewrite Hrow, Hrow'. f_equal. apply list_eq. intros j.
    rewrite Forall_forall in Hc, Hc'.
    pose proof (Hc row (list_elem_of_lookup_2 _ _ _ Hrow)) as Hl.
    pose proof (Hc' row' (list_elem_of_lookup_2 _ _ _ Hrow')) as Hl'.
    destruct (decide (j < cols)) as [Hj|Hj].
    + specialize (Hcell i j Hi Hj). unfold cellO in Hcell.
      by rewrite Hrow, Hrow' in Hcell.
    + rewrite !lookup_ge_None_2; [done|lia|lia].
  - rewrite !lookup_ge_None_2; [done|lia|lia].
Qed.

Lemma is_grid_mask n (m : grid bool) xl :
  is_grid n n m → is_grid n n (Serial.initializeGrid n m xl).1.
Proof.
  intros Hm. unfold Serial.initializeGrid, Serial.mask_slits, Serial.mask_barrier,
    Serial.mask_edges. cbn [fst]. eauto 20 with grid.
Qed.

Lemma is_grid_updateLaplacian n U Unew mask fac rows cols :
  is_grid rows cols Unew → is_grid rows cols (Serial.updateLaplacian n U Unew mask fac).
Proof. intros H. unfold Serial.updateLaplacian. eauto 20 with grid. Qed.

Lemma is_grid_applyBoundaryConditions sin pow n U mask t xlin rows cols :
  is_grid rows cols U →
  is_grid rows cols (Serial.applyBoundaryConditions sin pow n U mask t xlin).
Proof.
  intros H. unfold Serial.applyBoundaryConditions, Serial.bc_source, Serial.bc_zero.
  eauto 20 with grid.
Qed.

Lemma is_grid_calculateLaplacian n U Uprev mask Unew fac local_N rows cols :
  is_grid rows cols Unew →
  is_grid rows cols (Mpi.calculateLaplacian n U Uprev mask Unew fac local_N).
Proof. intros H. unfold Mpi.calculateLaplacian. eauto 20 with grid. Qed.

Lemma is_grid_mpi_applyBoundaryConditions sin pow n U mask xlin t local_N rows cols :
  is_grid rows cols U →
  is_grid rows cols (Mpi.applyBoundaryConditions sin pow n U mask xlin t local_N).
Proof. intros H. unfold Mpi.applyBoundaryConditions. cbv zeta. eauto 20 with grid. Qed.

(** * Loops with an invariant *)

Lemma iter_from_map {S T} (φ : S → T) (bodyS : nat → S → S) (bodyT : nat → T → T)
    lo n s :
  (∀ k s, φ (bodyS k s) = bodyT k (φ s)) →
  φ (iter_from bodyS lo n s) = iter_from bodyT lo n (φ s).
Proof.
  intros H. revert lo s. induction n as [|n IH]; intros lo s; simpl; [done|].
  by rewrite IH, H.
Qed.

Lemma for_loop_map {S T} (φ : S → T) (bodyS : nat → S → S) (bodyT : nat → T → T)
    lo hi s :
  (∀ k s, φ (bodyS k s) = bodyT k (φ s)) →
  φ (for_loop lo hi bodyS s) = for_loop lo hi bodyT (φ s).
Proof. apply iter_from_map. Qed.

(** An invariant indexed by the loop variable. *)
Lemma for_loop_inv {St} (P : nat → St → Prop) lo hi (body : nat → St → St) s :
  lo ≤ hi → P lo s →
  (∀ k s, lo ≤ k < hi → P k s → P (S k) (body k s)) →
  P hi (for_loop lo hi body s).
Proof.
  intros Hle H0 Hstep. unfold for_loop.
  assert (∀ cnt l s, lo ≤ l → l + cnt ≤ hi → P l s → P (l + cnt) (iter_from body l cnt s))
    as H.
  { induction cnt as [|cnt IH]; intros l s' Hl Hh Hs; simpl.
    - by rewrite Nat.add_0_r.
    - replace (l + S cnt) with (S l + cnt) by lia.
      apply IH; [lia|lia|]. apply Hstep; [lia|done]. }
  replace hi with (lo + (hi - lo)) at 1 by lia. apply H; [lia|lia|done].
Qed.

Lemma for_loopM_inv {St} (P : nat → St → Prop) lo hi (body : nat → St → option St) s s' :
  lo ≤ hi → P lo s →
  (∀ k s s', lo ≤ k < hi → P k s → body k s = Some s' → P (S k) s') →
  for_loopM lo hi body s = Some s' → P hi s'.
Proof.
  intros Hle H0 Hstep. unfold for_loopM.
  assert (∀ cnt l s, lo ≤ l → l + cnt ≤ hi → P l s →
            iter_fromM body l cnt s = Some s' → P (l + cnt) s') as H.
  { induction cnt as [|cnt IH]; intros l s0 Hl Hh Hs; simpl.
    - intros [= <-]. by rewrite Nat.add_0_r.
    - destruct (body l s0) as [s1|] eqn:E; [|done]. cbn [mbind option_bind].
      replace (l + S cnt) with (S l + cnt) by lia.
      apply IH; [lia|lia|]. eapply Hstep; [|done|done]. lia. }
  intros Hrun. replace hi with (lo + (hi - lo)) by lia. eapply H; [| |done|done]; lia.
Qed.

Lemma forallb_seq (f : nat → bool) n i :
  forallb f (seq 0 n) = true → i < n → f i = true.
Proof.
  intros H Hi. rewrite forallb_forall in H. apply H. apply in_seq. lia.
Qed.

Lemma overwrite_overwrite {A} (v w : A) (o : option A) :
  overwrite v (overwrite w o) = overwrite v o.
Proof. by destruct o. Qed.

Lemma rd_ext (V V' : grid float) a b : cellO V a b = cellO V' a b → rd V a b = rd V' a b.
Proof. unfold rd. by intros ->. Qed.

(** * The coordinates *)

Lemma init_xlin_lookup n (xl : list float) i :
  length (init_xlin n xl) = length xl ∧
  (i < n → i < length xl → init_xlin n xl !! i = Some (xlin_val n i)) ∧
  (n ≤ i → init_xlin n xl !! i = xl !! i).
Proof.
  unfold init_xlin, for_loop. rewrite Nat.sub_0_r.
  change (λ (i0 : nat) (x : list float),
            <[i0 := (0.5 * dx_of n + of_int i0 * dx_of n)%float]> x)
    with (λ (k : nat) (x : list float), <[k := xlin_val n k]> x).
  set (body := λ (k : nat) (x : list float), <[k := xlin_val n k]> x).
  assert (∀ cnt lo xs,
    length (iter_from body lo cnt xs) = length xs ∧
    (lo ≤ i < lo + cnt → i < length xs →
       iter_from body lo cnt xs !! i = Some (xlin_val n i)) ∧
    (¬ lo ≤ i < lo + cnt → iter_from body lo cnt xs !! i = xs !! i)) as H.
  { induction cnt as [|cnt IH]; intros lo xs; simpl.
    - split_and!; [done|lia|done].
    - destruct (IH (S lo) (body lo xs)) as (L & I1 & I2).
      pose proof (length_insert xs lo (xlin_val n lo)) as Hlen.
      change (<[lo := xlin_val n lo]> xs) with (body lo xs) in Hlen.
      rewrite Hlen in L, I1. split_and!; [done| |].
      + intros Hi Hl. destruct (decide (i = lo)) as [->|Hne].
        * rewrite I2 by lia. unfold body. by apply list_lookup_insert_eq.
        * apply I1; [lia|done].
      + intros Hi. rewrite I2 by lia. unfold body. apply list_lookup_insert_ne. lia. }
  destruct (H n 0 xl) as (L & I1 & I2). split_and!; [done| |].
  - intros ? ?. apply I1; [lia|done].
  - intros ?. apply I2. lia.
Qed.

Lemma init_xlin_idempotent n xl :
  init_xlin n (init_xlin n xl) = init_xlin n xl.
Proof.
  apply list_eq. intros i.
  destruct (init_xlin_lookup n (init_xlin n xl) i) as (L2 & A2 & B2).
  destruct (init_xlin_lookup n xl i) as (L1 & A1 & B1).
  destruct (decide (i < n)) as [Hi|Hi]; [|apply B2; lia].
  destruct (decide (i < length xl)) as [Hl|Hl].
  - rewrite A2, A1; [done|done|done|done|lia].
  - rewrite !lookup_ge_None_2; [done|lia|lia].
Qed.

(** The 256 coordinates of the run, computed. *)
Lemma xlin_val_centre_all :
  forallb (λ i, Leibniz.eqb (xlin_val N i) (centre i)) (seq 0 N) = true.
Proof. vm_compute. reflexivity. Qed.

Lemma xlin_increasing_all :
  forallb (λ i, (0 <? xlin_val N i)%float && (xlin_val N i <? xlin_val N (S i))%float
                && (xlin_val N i <? 1)%float) (seq 0 N) = true.
Proof. vm_compute. reflexivity. Qed.

(** X1.  The coordinate loop of [initializeGrid] on a vector of N = 256
    entries, whatever the vector held: entry i is exactly the centre
    (2 i + 1) / 512 of cell i (no rounding error), it lies strictly between 0
    and 1, and the entries increase strictly. *)
Theorem xlin_exact_centres (xl : list float) (i : nat) :
  length xl = N → i < N →
  rdv (init_xlin N xl) i = centre i ∧
  (0 <? rdv (init_xlin N xl) i)%float = true ∧
  (rdv (init_xlin N xl) i <? 1)%float = true ∧
  (S i < N → (rdv (init_xlin N xl) i <? rdv (init_xlin N xl) (S i))%float = true).
Proof.
  intros Hl Hi.
  assert (∀ k, k < N → rdv (init_xlin N xl) k = xlin_val N k) as Hx.
  { intros k Hk. destruct (init_xlin_lookup N xl k) as (_ & I1 & _).
    unfold rdv. rewrite I1; [done|done|lia]. }
  pose proof (forallb_seq _ _ _ xlin_val_centre_all Hi) as Hc.
  pose proof (forallb_seq _ _ _ xlin_increasing_all Hi) as Hm.
  cbv beta in Hc, Hm. apply FloatAxioms.Leibniz.eqb_spec in Hc.
  apply andb_true_iff in Hm as [Hm H1]. apply andb_true_iff in Hm as [H0 Hm].
  rewrite Hx by done. split_and!; try done.
  intros HS. by rewrite Hx.
Qed.

Lemma xlin_exact_centres_witness :
  rdv (init_xlin N (replicate N 0%float)) 100 = centre 100 ∧
  (0 <? rdv (init_xlin N (replicate N 0%float)) 100)%float = true ∧
  (rdv (init_xlin N (replicate N 0%float)) 100 <? 1)%float = true ∧
  (101 < N → (rdv (init_xlin N (replicate N 0%float)) 100
              <? rdv (init_xlin N (replicate N 0%float)) 101)%float = true).
Proof.
  apply (xlin_exact_centres (replicate N 0%float) 100).
  - reflexivity.
  - unfold N. lia.
Defined.

(** * The mask, whatever it held *)

(** Every cell of the mask after [initializeGrid]. *)
Lemma initializeGrid_cell n (m : grid bool) xl i j :
  cellO (Serial.initializeGrid n m xl).1 i j =
    if decide (in_slit n i j) then overwrite false (cellO m i j)
    else if decide ((i < n ∧ j < n ∧ on_edge n i j) ∨ in_barrier n i j)
         then overwrite true (cellO m i j)
         else cellO m i j.
Proof.
  unfold Serial.initializeGrid. cbn [fst].
  destruct (mask_slits_writes n (Serial.mask_barrier n (Serial.mask_edges n m)) i j)
    as (S1 & S2 & _).
  destruct (mask_barrier_writes n (Serial.mask_edges n m) i j) as (B1 & B2 & _).
  destruct (mask_edges_writes n m i j) as (E1 & E2 & _).
  cbv beta in *. unfold in_slit, slit_column, in_barrier, on_edge.
  assert (cellO (Serial.mask_edges n m) i j =
          if decide (i < n ∧ j < n ∧ (i = 0 ∨ i = n - 1 ∨ j = 0 ∨ j = n - 1))
          then overwrite true (cellO m i j) else cellO m i j) as Ee.
  { destruct (decide _) as [He|He]; [apply E1; lia|apply E2; lia]. }
  clear E1 E2.
  destruct (decide (1 ≤ i < n - 1 ∧ _)) as [Hs|Hs];
    [rewrite S1 by exact Hs|rewrite S2 by exact Hs];
    (destruct (decide (n / 4 ≤ i < 9 * n / 32 ∧ j < n - 1)) as [Hb|Hb];
       [rewrite B1 by exact Hb|rewrite B2 by exact Hb]);
    rewrite Ee; repeat case_decide; rewrite ?overwrite_overwrite; try reflexivity; tauto.
Qed.

(** X2.  The mask [initializeGrid] builds from an all-false N x N mask, for
    every N and every cell, both ways: a cell is a wall exactly when it lies
    on an edge or in the barrier band and is not a slit cell, and it is open
    exactly when it is a slit cell or lies neither on an edge nor in the
    band. *)
Theorem build_mask_exact (n i j : nat) :
  i < n → j < n →
  (wall (Serial.build_mask n) i j ↔
     (on_edge n i j ∨ in_barrier n i j) ∧ ¬ in_slit n i j) ∧
  (open_cell (Serial.build_mask n) i j ↔
     in_slit n i j ∨ (¬ on_edge n i j ∧ ¬ in_barrier n i j)).
Proof.
  intros Hi Hj. unfold wall, open_cell, Serial.build_mask.
  rewrite initializeGrid_cell, cellO_mk_grid by done. cbn [overwrite].
  repeat case_decide; split; split; intros ?; try discriminate; try reflexivity; tauto.
Qed.

Lemma build_mask_exact_witness :
  (wall (Serial.build_mask 256) 64 100 ↔
     (on_edge 256 64 100 ∨ in_barrier 256 64 100) ∧ ¬ in_slit 256 64 100) ∧
  (open_cell (Serial.build_mask 256) 64 100 ↔
     in_slit 256 64 100 ∨ (¬ on_edge 256 64 100 ∧ ¬ in_barrier 256 64 100)).
Proof. apply (build_mask_exact 256 64 100); lia. Defined.

(** X3.  [initializeGrid] is idempotent on an N x N mask: whatever the mask
    and the coordinate vector held, running it again on its own result
    changes neither the mask nor the coordinates. *)
Theorem initializeGrid_idempotent (n : nat) (m : grid bool) (xl : list float) :
  is_grid n n m →
  Serial.initializeGrid n (Serial.initializeGrid n m xl).1 (Serial.initializeGrid n m xl).2
  = Serial.initializeGrid n m xl.
Proof.
  intros Hm.
  assert (∀ a b : grid bool * list float, a.1 = b.1 → a.2 = b.2 → a = b) as Hpair.
  { intros [] []; simpl; congruence. }
  apply Hpair.
  - apply (grid_ext n n); [by do 2 apply is_grid_mask|by apply is_grid_mask|].
    intros i j Hi Hj. rewrite !initializeGrid_cell.
    repeat case_decide; rewrite ?overwrite_overwrite; reflexivity.
  - unfold Serial.initializeGrid. cbn [fst snd]. apply init_xlin_idempotent.
Qed.

Lemma initializeGrid_idempotent_witness :
  Serial.initializeGrid 8 (Serial.initializeGrid 8 (mk_grid 8 8 true) []).1
    (Serial.initializeGrid 8 (mk_grid 8 8 true) []).2
  = Serial.initializeGrid 8 (mk_grid 8 8 true) [].
Proof. apply (initializeGrid_idempotent 8 (mk_grid 8 8 true) []), is_grid_mk_grid. Defined.

(** X25.  The built mask is mirror-symmetric in the column index whenever 16
    divides N (as for N = 256): cell (i, j) and cell (i, N-1-j) hold the same
    value, so the two slits and the walls are placed symmetrically about the
    vertical centre line. *)
Theorem build_mask_symmetric (n i j : nat) :
  n mod 16 = 0 → i < n → j < n →
  cellO (Serial.build_mask n) i j = cellO (Serial.build_mask n) i (n - 1 - j).
Proof.
  intros H16 Hi Hj. unfold Serial.build_mask.
  rewrite !initializeGrid_cell, !cellO_mk_grid by lia. cbn [overwrite].
  pose proof (Nat.div_mod_eq n 16) as Hn. rewrite H16 in Hn.
  set (q := n / 16) in *.
  assert (5 * n / 16 = 5 * q ∧ 3 * n / 8 = 6 * q ∧ 5 * n / 8 = 10 * q ∧
          11 * n / 16 = 11 * q ∧ n / 4 = 4 * q) as (E1 & E2 & E3 & E4 & E5).
  { split_and!; symmetry; apply Nat.div_unique_exact; lia. }
  unfold in_slit, slit_column, in_barrier, on_edge. rewrite E1, E2, E3, E4, E5.
  repeat case_decide; try reflexivity; exfalso; div_facts; lia.
Qed.

Lemma build_mask_symmetric_witness :
  cellO (Serial.build_mask 256) 70 85 = cellO (Serial.build_mask 256) 70 (256 - 1 - 85).
Proof. apply (build_mask_symmetric 256 70 85); [reflexivity|lia|lia]. Defined.

(** * The unit tests *)

Lemma check_from_true bad lo n :
  UnitTests.check_from bad lo n true = true ↔ ∀ i, lo ≤ i < lo + n → bad i = false.
Proof.
  revert lo. induction n as [|n IH]; intros lo; simpl.
  - split; [intros _ i; lia|done].
  - destruct (bad lo) eqn:E.
    + split; [done|]. intros H. rewrite H in E; [done|lia].
    + rewrite IH. split.
      * intros H i Hi. destruct (decide (i = lo)) as [->|]; [done|]. apply H. lia.
      * intros H i Hi. apply H. lia.
Qed.

(** X4.  [test_initializeGrid] run for a grid size N prints PASSED for every N
    except 3: for N = 3 the slit loop clears the edge cell mask[1][0] and the
    test prints FAILED. *)
Theorem test_initializeGrid_verdict (n : nat) :
  UnitTests.test_initializeGrid n = true ↔ n ≠ 3.
Proof.
  unfold UnitTests.test_initializeGrid.
  change (Serial.initializeGrid n (mk_grid n n false) (replicate n 0%float))
    with (Serial.build_mask n, init_xlin n (replicate n 0%float)).
  cbv iota beta. rewrite check_from_true.
  assert (∀ i j, i < n → j < n → rdb (Serial.build_mask n) i j =
            bool_decide ((on_edge n i j ∨ in_barrier n i j) ∧ ¬ in_slit n i j)) as Hrd.
  { intros i j Hi Hj. unfold rdb, Serial.build_mask.
    rewrite initializeGrid_cell, cellO_mk_grid by done. cbn [overwrite].
    destruct (decide (in_slit n i j)); [|destruct (decide (_ ∨ in_barrier n i j))];
      cbv beta iota delta [default from_option id]; symmetry;
      first [apply bool_decide_eq_true; tauto|apply bool_decide_eq_false; tauto]. }
  split.
  - intros H ->. specialize (H 1 ltac:(lia)). rewrite !Hrd in H by lia.
    vm_compute in H. discriminate.
  - intros Hn i Hi. rewrite !Hrd by lia.
    rewrite !orb_false_iff, !negb_false_iff, !bool_decide_eq_true.
    unfold on_edge, in_barrier, in_slit, slit_column. div_facts. lia.
Qed.

(** The cells [test_applyBoundaryConditions] reads. *)
Lemma test_bc_cells sin pow n i :
  i < n →
  let xl := init_xlin n (replicate n 0%float) in
  let U := Serial.applyBoundaryConditions sin pow n (mk_grid n n 0%float)
             (Serial.build_mask n) 0 xl in
  rd U 0 i = Serial.source sin pow 0 xl i ∧
  (rd U i 0 = 0%float ∨ rd U i 0 = Serial.source sin pow 0 xl 0) ∧
  (rd U i (n - 1) = 0%float ∨ rd U i (n - 1) = Serial.source sin pow 0 xl (n - 1)) ∧
  (rd U (n - 1) i = 0%float ∨ rd U (n - 1) i = Serial.source sin pow 0 xl i).
Proof.
  intros Hi xl U. unfold rd, U.
  rewrite !applyBoundaryConditions_cell by (try apply is_grid_mk_grid; lia).
  rewrite decide_True by done.
  split_and!; [done|..]; destruct (decide _); cbn; auto;
    (rewrite decide_True by lia); cbn; auto.
Qed.

Lemma test_bc_iff (sin : float → float) (pow : float → float → float) (n : nat) :
  UnitTests.test_applyBoundaryConditions sin pow n = true ↔
  ∀ i, i < n →
    (Serial.source sin pow 0 (init_xlin n (replicate n 0%float)) i =? 0)%float = true.
Proof.
  unfold UnitTests.test_applyBoundaryConditions.
  change (Serial.initializeGrid n (mk_grid n n false) (replicate n 0%float))
    with (Serial.build_mask n, init_xlin n (replicate n 0%float)).
  cbv iota beta zeta. rewrite check_from_true. split.
  - intros H i Hi. specialize (H i ltac:(lia)).
    rewrite !orb_false_iff, !negb_false_iff in H. destruct H as [[[_ _] H] _].
    destruct (test_bc_cells sin pow n i Hi) as (E & _). cbv zeta in E.
    by rewrite E in H.
  - intros H i Hi.
    assert (i < n) as Hi' by lia.
    destruct (test_bc_cells sin pow n i Hi') as (E0 & E1 & E2 & E3). cbv zeta in *.
    rewrite !orb_false_iff, !negb_false_iff. rewrite E0.
    split_and!.
    + destruct E1 as [-> | ->]; [reflexivity|apply H; lia].
    + destruct E2 as [-> | ->]; [reflexivity|apply H; lia].
    + by apply H.
    + destruct E3 as [-> | ->]; [reflexivity|by apply H].
Qed.

(** X5.  [test_applyBoundaryConditions] prints PASSED exactly when the source
    term sin(20*pi*0) * sin(pi*xlin[i])^2, as the C library computes it,
    compares equal to 0.0 for every column i: the three zeroed edges never
    make it fail, for any grid size. *)
Theorem test_applyBoundaryConditions_verdict (sin : float → float)
    (pow : float → float → float) (n : nat) :
  UnitTests.test_applyBoundaryConditions sin pow n = true ↔
  ∀ i, i < n →
    (Serial.source sin pow 0 (init_xlin n (replicate n 0%float)) i =? 0)%float = true.
Proof. apply test_bc_iff. Qed.

Lemma zero_mul_finite x : is_finite x = true → (0 * x =? 0)%float = true.
Proof.
  intros H%is_finite_SF. rewrite FloatAxioms.eqb_spec, mul_spec.
  change (Prim2SF 0) with (S754_zero false).
  destruct (Prim2SF x) as [[]|[]| |[] m e]; by try destruct H.
Qed.

(** X6.  With a C library whose sin(0.0) is 0.0 and whose pow returns a finite
    value for the squared sines of the coordinates,
    [test_applyBoundaryConditions] prints PASSED, for every grid size. *)
Theorem test_applyBoundaryConditions_passes (sin : float → float)
    (pow : float → float → float) (n : nat) :
  sin 0%float = 0%float →
  (∀ i, i < n →
     is_finite (pow (sin (M_PI * rdv (init_xlin n (replicate n 0)) i)) 2)%float = true) →
  UnitTests.test_applyBoundaryConditions sin pow n = true.
Proof.
  intros Hsin Hpow. apply test_bc_iff. intros i Hi.
  unfold Serial.source. change (20 * M_PI * 0)%float with 0%float.
  rewrite Hsin. by apply zero_mul_finite, Hpow.
Qed.

Lemma test_applyBoundaryConditions_passes_witness :
  UnitTests.test_applyBoundaryConditions (λ _, 0%float) (λ x _, x) N = true.
Proof.
  apply (test_applyBoundaryConditions_passes (λ _, 0%float) (λ x _, x) N).
  - reflexivity.
  - intros i Hi. reflexivity.
Defined.

(** * Frames of the serial functions *)

(** The first loop of [applyBoundaryConditions] for any mask: iteration [k]
    zeroes its four cells when its test holds. *)
Lemma bc_zero_writes_any n mask :
  writes (Serial.bc_zero n mask)
    (λ i j, ∃ k, 0 ≤ k < n ∧
       (rdb mask k 0 || rdb mask k (n - 1) || rdb mask 0 k || rdb mask (n - 1) k = true ∧
        ((((i = n - 1 ∧ j = k) ∨ (i = 0 ∧ j = k)) ∨ (i = k ∧ j = n - 1)) ∨ (i = k ∧ j = 0))))
    (λ _ _, 0%float).
Proof.
  unfold Serial.bc_zero. eapply writes_for; intros i Hi.
  eapply (writes_if _ (λ U, set_cell (set_cell (set_cell (set_cell U _ _ _) _ _ _) _ _ _) _ _ _)).
  do 3 (eapply (writes_comp _ (λ m, set_cell m _ _ _));
        [|eapply writes_set; reflexivity]).
  eapply writes_set; reflexivity.
Qed.

(** X7.  [applyBoundaryConditions] with any mask and any field: row 0 always
    receives the source term; a cell that is not on one of the four edges is
    never written; and any other cell below row 0 is either left as it was or
    set to 0.0. *)
Theorem applyBoundaryConditions_frame (sin : float → float) (pow : float → float → float)
    (n : nat) (U : grid float) (mask : grid bool) (t : float) (xlin : list float)
    (i j : nat) :
  let U' := Serial.applyBoundaryConditions sin pow n U mask t xlin in
  (j < n → cellO U' 0 j = overwrite (Serial.source sin pow t xlin j) (cellO U 0 j)) ∧
  (i ≠ 0 → ¬ (i < n ∧ j < n ∧ on_edge n i j) → cellO U' i j = cellO U i j) ∧
  (i ≠ 0 → cellO U' i j = cellO U i j ∨ cellO U' i j = overwrite 0%float (cellO U i j)).
Proof.
  cbv zeta. unfold Serial.applyBoundaryConditions.
  pose proof (bc_source_writes sin pow n t xlin (Serial.bc_zero n mask U)) as HS.
  pose proof (bc_zero_writes_any n mask U) as HZ.
  split_and!.
  - intros Hj. destruct (HS 0 j) as (S1 & _ & _). rewrite S1 by done.
    destruct (HZ 0 j) as (_ & _ & [-> | ->]); [done|apply overwrite_overwrite].
  - intros Hi He. destruct (HS i j) as (_ & S2 & _). rewrite S2 by lia.
    destruct (HZ i j) as (_ & Z2 & _). apply Z2. unfold on_edge in He.
    intros (k & Hk & _ & Hc). lia.
  - intros Hi. destruct (HS i j) as (_ & S2 & _). rewrite S2 by lia.
    destruct (HZ i j) as (_ & _ & Z3). exact Z3.
Qed.

(** X8.  [updateLaplacian] never writes a cell of [Unew] that lies on one of
    the four edges or that the mask marks as a wall: such a cell keeps the
    value it had, whatever [U] and [fac] are. *)
Theorem updateLaplacian_frame (n : nat) (U Unew : grid float) (mask : grid bool)
    (fac : float) (i j : nat) :
  on_edge n i j ∨ rdb mask i j = true →
  cellO (Serial.updateLaplacian n U Unew mask fac) i j = cellO Unew i j.
Proof.
  intros H. destruct (updateLaplacian_cell n U Unew mask fac i j) as [_ H2].
  apply H2. unfold on_edge in H. destruct H as [H|H]; [left; lia|by right].
Qed.

Lemma updateLaplacian_frame_witness :
  cellO (Serial.updateLaplacian N pulse (mk_grid N N 1%float) (Serial.build_mask N) fac)
    64 100
  = cellO (mk_grid N N 1%float) 64 100.
Proof.
  apply (updateLaplacian_frame N pulse (mk_grid N N 1%float) (Serial.build_mask N) fac 64 100).
  right. vm_compute. reflexivity.
Defined.

(** X9.  A field of zeros is a fixed point of the stencil: for every grid
    size, every mask and every finite factor, [updateLaplacian] run on an
    all-zero [U] into an all-zero [Unew] leaves [Unew] all-zero (+0.0 in every
    cell). *)
Theorem updateLaplacian_zero (n : nat) (mask : grid bool) (fac : float) :
  is_finite fac = true →
  Serial.updateLaplacian n (mk_grid n n 0%float) (mk_grid n n 0%float) mask fac
  = mk_grid n n 0%float.
Proof.
  intros Hfin. apply (grid_ext n n).
  - apply is_grid_updateLaplacian, is_grid_mk_grid.
  - apply is_grid_mk_grid.
  - intros i j Hi Hj.
    destruct (updateLaplacian_cell n (mk_grid n n 0%float) (mk_grid n n 0%float)
                mask fac i j) as [H1 H2].
    destruct (decide (1 ≤ i < n - 1 ∧ 1 ≤ j < n - 1)) as [Hin|Hout]; [|apply H2; tauto].
    destruct (rdb mask i j) eqn:Em; [apply H2; tauto|].
    rewrite H1 by tauto. rewrite cellO_mk_grid by done. cbn [overwrite]. f_equal.
    unfold Serial.update_val, rd. rewrite !cellO_mk_grid by lia. cbn [default].
    cbv zeta. by apply stencil_zero.
Qed.

Lemma updateLaplacian_zero_witness :
  Serial.updateLaplacian 8 (mk_grid 8 8 0%float) (mk_grid 8 8 0%float)
    (Serial.build_mask 8) fac
  = mk_grid 8 8 0%float.
Proof. apply (updateLaplacian_zero 8 (Serial.build_mask 8) fac). reflexivity. Defined.

(** * Invariants of the serial run *)

Lemma run_inv_init n : run_inv n (Serial.main_init n).
Proof.
  unfold run_inv. change (Serial.mask (Serial.main_init n)) with (Serial.build_mask n).
  change (Serial.U (Serial.main_init n)) with (mk_grid n n 0%float).
  change (Serial.Uprev (Serial.main_init n)) with (mk_grid n n 0%float).
  change (Serial.Unew (Serial.main_init n)) with (mk_grid n n 0%float).
  change (Serial.xlin (Serial.main_init n)) with (init_xlin n (replicate n 0%float)).
  split_and!; try apply is_grid_mk_grid; try done.
  - destruct (init_xlin_lookup n (replicate n 0%float) 0) as [-> _].
    apply length_replicate.
  - intros. by apply cellO_mk_grid.
  - intros. by apply cellO_mk_grid.
Qed.

Lemma run_inv_step sin pow n s : run_inv n s → run_inv n (Serial.step sin pow n s).
Proof.
  intros (Hm & HU & HP & HN & Hx & HNz & HUz). unfold run_inv, Serial.step.
  cbn [Serial.mask Serial.U Serial.Uprev Serial.Unew Serial.xlin]. rewrite Hm.
  assert (∀ i j, i < n → j < n → on_edge n i j ∨ rdb (Serial.build_mask n) i j = true →
            cellO (Serial.updateLaplacian n (Serial.U s) (Serial.Unew s)
                     (Serial.build_mask n) (fac_of n)) i j = Some 0%float) as HNz'.
  { intros i j Hi Hj H.
    destruct (updateLaplacian_cell n (Serial.U s) (Serial.Unew s) (Serial.build_mask n)
                (fac_of n) i j) as [_ H2].
    rewrite H2; [by apply HNz|]. unfold on_edge in H. destruct H as [H|H]; [left; lia|by right]. }
  split_and!; try done.
  - by apply is_grid_applyBoundaryConditions, is_grid_updateLaplacian.
  - by apply is_grid_updateLaplacian.
  - intros i j Hi Hj Hi0 Hw.
    rewrite applyBoundaryConditions_cell by (try apply is_grid_updateLaplacian; done).
    rewrite decide_False by done. destruct (decide _); [done|].
    apply HNz'; auto.
Qed.

Lemma run_inv_after sin pow n k : run_inv n (after_steps sin pow n k).
Proof.
  unfold after_steps. induction k as [|k IH]; simpl.
  - apply run_inv_init.
  - by apply run_inv_step.
Qed.

(** The loop of [main] ends in a state that some number of iterations of its
    body reaches. *)
Lemma main_loop_after sin pow fuel n s s' :
  Serial.main_loop sin pow fuel n s = Some s' →
  ∃ k, k ≤ fuel ∧ s' = Nat.iter k (Serial.step sin pow n) s.
Proof.
  revert s. induction fuel as [|fuel IH]; intros s; simpl;
    destruct (Serial.t s <? tEnd)%float; try done.
  - intros [= <-]. by exists 0.
  - intros (k & Hk & ->)%IH. exists (S k). split; [lia|].
    clear. induction k as [|k IH]; simpl; [done|]. by rewrite IH.
  - intros [= <-]. exists 0. split; [lia|done].
Qed.

Lemma after_steps_xlin sin pow n k :
  Serial.xlin (after_steps sin pow n k) = init_xlin n (replicate n 0%float).
Proof.
  unfold after_steps. induction k as [|k IH]; simpl; [reflexivity|exact IH].
Qed.

(** X10.  The walls stay at zero through the serial run: for every grid size,
    every C library and every number k of iterations of the loop body, the
    field U holds +0.0 in every wall cell of the built mask below row 0 (row 0
    holds the source term). *)
Theorem walls_stay_zero (sin : float → float) (pow : float → float → float)
    (n k i j : nat) :
  i < n → j < n → i ≠ 0 → rdb (Serial.build_mask n) i j = true →
  cellO (Serial.U (after_steps sin pow n k)) i j = Some 0%float.
Proof.
  intros Hi Hj Hi0 Hw. destruct (run_inv_after sin pow n k) as (_ & _ & _ & _ & _ & _ & H).
  by apply H.
Qed.

Lemma walls_stay_zero_witness :
  cellO (Serial.U (after_steps (λ x, x) (λ x _, x) 32 3)) 8 5 = Some 0%float.
Proof.
  apply (walls_stay_zero (λ x, x) (λ x _, x) 32 3 8 5); [lia|lia|lia|].
  vm_compute. reflexivity.
Defined.

(** X11.  The serial run keeps its dimensions: after any number of iterations
    of the loop body, and in the state in which the loop of [main] ends, U,
    Uprev, Unew and the mask are N x N and xlin has N entries, so every index
    the loops produce stays in range. *)
Theorem run_keeps_dimensions (sin : float → float) (pow : float → float → float)
    (n : nat) :
  (∀ k, let s := after_steps sin pow n k in
        is_grid n n (Serial.U s) ∧ is_grid n n (Serial.Uprev s) ∧
        is_grid n n (Serial.Unew s) ∧ is_grid n n (Serial.mask s) ∧
        length (Serial.xlin s) = n) ∧
  (∀ fuel s, Serial.main_loop sin pow fuel n (Serial.main_init n) = Some s →
        is_grid n n (Serial.U s) ∧ is_grid n n (Serial.Uprev s) ∧
        is_grid n n (Serial.Unew s) ∧ is_grid n n (Serial.mask s) ∧
        length (Serial.xlin s) = n).
Proof.
  assert (∀ s, run_inv n s →
    is_grid n n (Serial.U s) ∧ is_grid n n (Serial.Uprev s) ∧
    is_grid n n (Serial.Unew s) ∧ is_grid n n (Serial.mask s) ∧
    length (Serial.xlin s) = n) as H.
  { intros s (Hm & HU & HP & HN & Hx & _). rewrite Hm. split_and!; try done.
    apply is_grid_mask, is_grid_mk_grid. }
  split.
  - intros k. apply H, run_inv_after.
  - intros fuel s (k & _ & ->)%main_loop_after. apply H, (run_inv_after sin pow n k).
Qed.

(** X12.  The source row lags one step behind the clock: iteration k+1 of the
    serial loop writes on row 0 the source term of the time t reached after k
    iterations, and only then advances t by dt; the value printed after the
    iteration is therefore one dt ahead of the time of the boundary values. *)
Theorem source_row_lags (sin : float → float) (pow : float → float → float)
    (n k j : nat) :
  j < n →
  cellO (Serial.U (after_steps sin pow n (S k))) 0 j =
    Some (Serial.source sin pow (Serial.t (after_steps sin pow n k))
            (init_xlin n (replicate n 0%float)) j) ∧
  Serial.t (after_steps sin pow n (S k))
    = (Serial.t (after_steps sin pow n k) + dt_of n)%float.
Proof.
  intros Hj. split; [|reflexivity].
  destruct (run_inv_after sin pow n k) as (Hm & HU & _ & HN & _).
  pose proof (after_steps_xlin sin pow n k) as Hx.
  change (after_steps sin pow n (S k))
    with (Serial.step sin pow n (after_steps sin pow n k)).
  unfold Serial.step. cbn [Serial.U]. rewrite Hm, Hx.
  rewrite applyBoundaryConditions_cell; [|by apply is_grid_updateLaplacian|lia|done].
  by rewrite decide_True.
Qed.

Lemma source_row_lags_witness :
  cellO (Serial.U (after_steps (λ x, x) (λ x _, x) 8 3)) 0 5 =
    Some (Serial.source (λ x, x) (λ x _, x) (Serial.t (after_steps (λ x, x) (λ x _, x) 8 2))
            (init_xlin 8 (replicate 8 0%float)) 5) ∧
  Serial.t (after_steps (λ x, x) (λ x _, x) 8 3)
    = (Serial.t (after_steps (λ x, x) (λ x _, x) 8 2) + dt_of 8)%float.
Proof. apply (source_row_lags (λ x, x) (λ x _, x) 8 2 5). lia. Defined.

Lemma rd_zero (U : grid float) i j : cellO U i j = Some 0%float → rd U i j = 0%float.
Proof. unfold rd. by intros ->. Qed.

Lemma front_inv_step sin pow n k s :
  is_finite (fac_of n) = true →
  front_inv n k s → front_inv n (S k) (Serial.step sin pow n s).
Proof.
  intros Hfin [Hinv Hz]. split; [by apply run_inv_step|].
  destruct Hinv as (Hm & HU & HP & HN & Hx & HNz & HUz).
  unfold Serial.step. cbn [Serial.U Serial.Unew]. rewrite Hm.
  assert (∀ i j, S k ≤ i < n → j < n →
            cellO (Serial.updateLaplacian n (Serial.U s) (Serial.Unew s)
                     (Serial.build_mask n) (fac_of n)) i j = Some 0%float) as HN'.
  { intros i j Hi Hj.
    destruct (updateLaplacian_cell n (Serial.U s) (Serial.Unew s) (Serial.build_mask n)
                (fac_of n) i j) as [H1 H2].
    destruct (decide (1 ≤ i < n - 1 ∧ 1 ≤ j < n - 1)) as [[Hii Hjj]|Hout];
      [|rewrite H2 by tauto; apply Hz; lia].
    destruct (rdb (Serial.build_mask n) i j) eqn:Em; [rewrite H2 by tauto; apply Hz; lia|].
    rewrite H1 by done. destruct (Hz i j ltac:(lia) Hj) as [_ ->]. cbn [overwrite]. f_equal.
    unfold Serial.update_val. cbv zeta.
    rewrite !rd_zero; [by apply stencil_zero|apply Hz; lia..]. }
  intros i j Hi Hj. split; [|by apply HN'].
  rewrite applyBoundaryConditions_cell by (try apply is_grid_updateLaplacian; done || lia).
  rewrite decide_False by lia. destruct (decide _); [done|]. by apply HN'.
Qed.

Lemma front_inv_after sin pow n k :
  is_finite (fac_of n) = true → front_inv n k (after_steps sin pow n k).
Proof.
  intros Hfin. unfold after_steps. induction k as [|k IH]; simpl.
  - split; [apply run_inv_init|]. intros i j Hi Hj.
    change (Serial.U (Serial.main_init n)) with (mk_grid n n 0%float).
    change (Serial.Unew (Serial.main_init n)) with (mk_grid n n 0%float).
    rewrite cellO_mk_grid by lia. done.
  - by apply front_inv_step.
Qed.

(** X24.  The wave advances at most one row per step: for every grid size
    whose factor fac is finite (as it is for N = 256) and every C library,
    after k iterations of the serial loop body the field U still holds +0.0
    in every row i >= k; what the source writes on row 0 needs i steps to
    reach row i. *)
Theorem wave_front (sin : float → float) (pow : float → float → float) (n k i j : nat) :
  is_finite (fac_of n) = true → k ≤ i < n → j < n →
  cellO (Serial.U (after_steps sin pow n k)) i j = Some 0%float.
Proof.
  intros Hfin Hi Hj. destruct (front_inv_after sin pow n k Hfin) as [_ H].
  by apply H.
Qed.

Lemma wave_front_witness :
  cellO (Serial.U (after_steps (λ x, x) (λ x _, x) N 10)) 10 5 = Some 0%float.
Proof.
  apply (wave_front (λ x, x) (λ x _, x) N 10 10 5).
  - vm_compute. reflexivity.
  - unfold N. lia.
  - unfold N. lia.
Defined.

(** * The distributed variant *)

(** X13.  [calculateLaplacian] of the distributed variant is the three-layer
    scheme on the band of a process: in the local rows 1 .. local_N-2 and the
    columns 1 .. N-2 every unmasked cell of [Unew] receives
    2*U - Uprev + fac * (left + right + up + down - 4*U), summed in that
    order, and every other cell of [Unew] keeps its value. *)
Theorem mpi_calculateLaplacian_band (n : nat) (U Uprev : grid float) (mask : grid bool)
    (Unew : grid float) (fac : float) (local_N i j : nat) :
  (1 ≤ i < local_N - 1 ∧ 1 ≤ j < n - 1 ∧ rdb mask i j = false →
     cellO (Mpi.calculateLaplacian n U Uprev mask Unew fac local_N) i j =
       overwrite (2 * rd U i j - rd Uprev i j
                  + fac * (rd U i (j - 1) + rd U i (j + 1)
                           + rd U (i - 1) j + rd U (i + 1) j - 4 * rd U i j))%float
                 (cellO Unew i j)) ∧
  (¬ (1 ≤ i < local_N - 1 ∧ 1 ≤ j < n - 1 ∧ rdb mask i j = false) →
     cellO (Mpi.calculateLaplacian n U Uprev mask Unew fac local_N) i j = cellO Unew i j).
Proof.
  destruct (calculateLaplacian_writes n U Uprev mask fac local_N Unew i j) as (H1 & H2 & _).
  split; [|exact H2]. intros H. rewrite H1 by exact H. reflexivity.
Qed.

Lemma mpi_bc_cell sin pow n U mask xlin t local_N i j :
  cellO (Mpi.applyBoundaryConditions sin pow n U mask xlin t local_N) i j =
    if decide (i < local_N ∧ j = 0)
    then overwrite (Serial.source sin pow t xlin i) (cellO U i j)
    else if decide (i < local_N ∧ j = n - 1) then overwrite 0%float (cellO U i j)
    else cellO U i j.
Proof.
  unfold Mpi.applyBoundaryConditions.
  assert (writes (for_loop 0 local_N (λ i U,
            set_cell (set_cell U i (n - 1) 0%float) i 0 0%float))
            (λ i j, i < local_N ∧ (j = n - 1 ∨ j = 0)) (λ _ _, 0%float)) as W1.
  { eapply writes_ext.
    - eapply writes_for; intros k Hk.
      eapply (writes_comp _ (λ m, set_cell m _ _ _)); eapply writes_set; reflexivity.
    - foot. }
  assert (writes (for_loop 0 local_N (λ i U,
            set_cell U i 0 (Serial.source sin pow t xlin i)))
            (λ i j, i < local_N ∧ j = 0) (λ i _, Serial.source sin pow t xlin i)) as W2.
  { eapply writes_ext.
    - eapply writes_for; intros k Hk. eapply writes_set; reflexivity.
    - foot. }
  destruct (W2 (for_loop 0 local_N (λ i U,
              set_cell (set_cell U i (n - 1) 0%float) i 0 0%float) U) i j) as (S1 & S2 & _).
  destruct (W1 U i j) as (Z1 & Z2 & _). cbv beta in S1, S2, Z1, Z2.
  destruct (decide (i < local_N ∧ j = 0)) as [H0|H0].
  - rewrite S1, Z1 by tauto. apply overwrite_overwrite.
  - rewrite S2 by tauto. destruct (decide (i < local_N ∧ j = n - 1)) as [H1|H1].
    + apply Z1. tauto.
    + apply Z2. tauto.
Qed.

(** X14.  [applyBoundaryConditions] of the distributed variant, on the
    local_N x N field of a process: column 0 of local row i receives the
    source term of xlin[i] (the local row index, not a column coordinate),
    column N-1 is set to 0.0, and every other cell keeps its value; the mask
    is not consulted. *)
Theorem mpi_applyBoundaryConditions_columns (sin : float → float)
    (pow : float → float → float) (n : nat) (U : grid float) (mask : grid bool)
    (xlin : list float) (t : float) (local_N i j : nat) :
  is_grid local_N n U → i < local_N → j < n →
  cellO (Mpi.applyBoundaryConditions sin pow n U mask xlin t local_N) i j =
    if decide (j = 0) then Some (Serial.source sin pow t xlin i)
    else if decide (j = n - 1) then Some 0%float
    else cellO U i j.
Proof.
  intros HU Hi Hj. rewrite mpi_bc_cell.
  destruct (is_grid_cell local_N n U i j HU Hi Hj) as [u ->]. cbn [overwrite].
  repeat case_decide; try reflexivity; tauto.
Qed.

Lemma mpi_applyBoundaryConditions_columns_witness :
  cellO (Mpi.applyBoundaryConditions (λ x, x) (λ x _, x) 8 (mk_grid 4 8 1%float) [] [] 1 4)
    2 7
  = if decide (7 = 0) then Some (Serial.source (λ x, x) (λ x _, x) 1 [] 2)
    else if decide (7 = 8 - 1) then Some 0%float
    else cellO (mk_grid 4 8 1%float) 2 7.
Proof.
  apply (mpi_applyBoundaryConditions_columns (λ x, x) (λ x _, x) 8 (mk_grid 4 8 1%float)
           [] [] 1 4 2 7).
  - apply is_grid_mk_grid.
  - lia.
  - lia.
Defined.

Lemma mpi_run_inv_init n size rank : mpi_run_inv n size (Mpi.main_init n size rank).
Proof.
  unfold mpi_run_inv.
  change (Mpi.local_N (Mpi.main_init n size rank)) with (n / size).
  change (Mpi.U (Mpi.main_init n size rank)) with (mk_grid (n / size) n 0%float).
  change (Mpi.Unew (Mpi.main_init n size rank)) with (mk_grid (n / size) n 0%float).
  split_and!; try apply is_grid_mk_grid; try done.
  - intros. by apply cellO_mk_grid.
  - intros. apply cellO_mk_grid; lia.
Qed.

Lemma mpi_run_inv_step sin pow n size w :
  mpi_run_inv n size w → mpi_run_inv n size (Mpi.step sin pow n w).
Proof.
  intros (Hl & HU & HN & HNz & HUz).
  unfold mpi_run_inv, Mpi.step, Mpi.bc_phase, Mpi.stencil_phase.
  cbn [Mpi.local_N Mpi.U Mpi.Unew Mpi.Uprev Mpi.mask Mpi.xlin Mpi.t]. rewrite Hl.
  assert (∀ i j, i < n / size → j < n → i = 0 ∨ i = n / size - 1 →
            cellO (Mpi.calculateLaplacian n (Mpi.U w) (Mpi.Uprev w) (Mpi.mask w)
                     (Mpi.Unew w) (fac_of n) (n / size)) i j = Some 0%float) as HNz'.
  { intros i j Hi Hj H.
    destruct (calculateLaplacian_cell n (Mpi.U w) (Mpi.Uprev w) (Mpi.mask w) (Mpi.Unew w)
                (fac_of n) (n / size) i j) as [_ H2].
    rewrite H2; [by apply HNz|]. left. lia. }
  split_and!; try done.
  - by apply is_grid_mpi_applyBoundaryConditions, is_grid_calculateLaplacian.
  - by apply is_grid_calculateLaplacian.
  - intros i j Hi Hj H. rewrite mpi_bc_cell.
    rewrite decide_False by lia. rewrite HNz' by (done || lia).
    by destruct (decide _).
Qed.

Lemma mpi_run_inv_after sin pow n size rank k :
  mpi_run_inv n size (mpi_after_steps sin pow n size rank k).
Proof.
  unfold mpi_after_steps. induction k as [|k IH]; simpl.
  - apply mpi_run_inv_init.
  - by apply mpi_run_inv_step.
Qed.

(** X15.  The first and the last local row of every process stay at zero: for
    every N, size, rank, C library and number k of iterations of the loop
    body, the field U of the process holds +0.0 in the columns 1 .. N-1 of
    its local rows 0 and local_N-1.  The rows that would hold the values of
    the neighbouring bands are never filled. *)
Theorem ghost_rows_stay_zero (sin : float → float) (pow : float → float → float)
    (n size rank k i j : nat) :
  i < n / size → i = 0 ∨ i = n / size - 1 → 1 ≤ j < n →
  cellO (Mpi.U (mpi_after_steps sin pow n size rank k)) i j = Some 0%float.
Proof.
  intros Hi H Hj.
  destruct (mpi_run_inv_after sin pow n size rank k) as (_ & _ & _ & _ & HU).
  by apply HU.
Qed.

Lemma ghost_rows_stay_zero_witness :
  cellO (Mpi.U (mpi_after_steps (λ x, x) (λ x _, x) 256 4 1 10)) 63 100 = Some 0%float.
Proof.
  apply (ghost_rows_stay_zero (λ x, x) (λ x _, x) 256 4 1 10 63 100).
  - vm_compute. lia.
  - right. reflexivity.
  - lia.
Defined.

Lemma same_variables_step sin pow n w w' :
  same_variables w w' → same_variables (Mpi.step sin pow n w) (Mpi.step sin pow n w').
Proof.
  intros (Hs & Hl & HU & HP & HN & Hm & Hx & Ht & Hk).
  unfold same_variables, Mpi.step, Mpi.bc_phase, Mpi.stencil_phase.
  cbn [Mpi.size Mpi.local_N Mpi.U Mpi.Uprev Mpi.Unew Mpi.mask Mpi.xlin Mpi.t Mpi.steps].
  rewrite Hs, Hl, HU, HP, HN, Hm, Hx, Ht, Hk. done.
Qed.

(** X16.  Every process of a distributed run computes the same thing: for
    every N, size, C library and number k of iterations, the variables of two
    processes of ranks rank and rank' (U, Uprev, Unew, the mask, xlin, t,
    local_N) are equal; only rank, start_row and end_row differ, and nothing
    reads them. *)
Theorem ranks_compute_the_same (sin : float → float) (pow : float → float → float)
    (n size rank rank' k : nat) :
  same_variables (mpi_after_steps sin pow n size rank k)
                 (mpi_after_steps sin pow n size rank' k).
Proof.
  unfold mpi_after_steps. induction k as [|k IH]; simpl.
  - unfold same_variables. split_and!; reflexivity.
  - by apply same_variables_step.
Qed.

(** ** No halo exchange *)










Lemma mpi_main_loop_short sin pow (w0 : Mpi.worker) :
  Mpi.t w0 = 0%float → Mpi.steps w0 = 0 → Mpi.main_loop sin pow 724 N w0 = None.
Proof.
  intros Ht0 Hs0. pose proof (mpi_main_loop_clock sin pow 724 N w0) as H.
  rewrite Ht0, Hs0 in H.
  assert (clock_loop 724 N 0 0 = None) as E by (vm_compute; reflexivity).
  rewrite E in H. clear E.
  destruct (Mpi.main_loop sin pow 724 N w0); [discriminate H|reflexivity].
Qed.

(** The loop of a process ends in a state that its step count of iterations
    of the body reaches. *)
Lemma mpi_main_loop_after sin pow fuel n w w' :
  Mpi.main_loop sin pow fuel n w = Some w' →
  ∃ k, w' = Nat.iter k (Mpi.step sin pow n) w ∧ Mpi.steps w' = Mpi.steps w + k.
Proof.
  revert w. induction fuel as [|fuel IH]; intros w; simpl;
    destruct (Mpi.t w <? tEnd)%float; try done.
  - intros [= <-]. exists 0. split; [done|lia].
  - intros (k & -> & Hk)%IH. exists (S k). split.
    + clear. induction k as [|k IH]; simpl; [done|]. by rewrite IH.
    + rewrite Hk. cbn [Mpi.step Mpi.bc_phase Mpi.stencil_phase Mpi.steps]. lia.
  - intros [= <-]. exists 0. split; [done|lia].
Qed.

Lemma mpi_main_eq sin pow fuel n size rank :
  Mpi.main sin pow fuel n size rank =
  Mpi.main_loop sin pow fuel n (Mpi.main_init n size rank) ≫= λ w, Some (0%Z, w).
Proof. reflexivity. Qed.

(** X17.  With N = 256 every process of a distributed run, whatever the number
    of processes, its rank and the C library, returns the status 0 after
    exactly 725 iterations of its loop (724 are not enough), with t >= tEnd:
    dividing the rows among more processes does not change the number of
    steps a process takes. *)
Theorem mpi_main_terminates (sin : float → float) (pow : float → float → float)
    (size rank : nat) :
  ∃ w, (∀ fuel, 725 ≤ fuel → Mpi.main sin pow fuel N size rank = Some (0%Z, w)) ∧
       Mpi.main sin pow 724 N size rank = None ∧
       Mpi.steps w = 725 ∧ (tEnd <=? Mpi.t w)%float = true ∧
       w = mpi_after_steps sin pow N size rank 725.
Proof.
  destruct (mpi_main_loop_from_zero sin pow (Mpi.main_init N size rank))
    as (w & Hw & Hs & Ht & _); [reflexivity..|].
  exists w. split_and!; [| |exact Hs|exact Ht|].
  - intros fuel Hf. rewrite mpi_main_eq.
    replace fuel with (725 + (fuel - 725)) by lia.
    rewrite (mpi_main_loop_more_fuel _ _ _ _ _ _ _ Hw). reflexivity.
  - rewrite mpi_main_eq.
    rewrite (mpi_main_loop_short sin pow (Mpi.main_init N size rank)); reflexivity.
  - destruct (mpi_main_loop_after _ _ _ _ _ _ Hw) as (k & -> & Hk).
    rewrite Hs in Hk. change (Mpi.steps (Mpi.main_init N size rank)) with 0 in Hk.
    by replace k with 725 by lia.
Qed.

(** * The shared-memory variant *)

Lemma in_place_is_sweep n U mask fac :
  OpenMp.calculateLaplacian_in_place n U mask fac = sweep n mask fac U U.
Proof.
  unfold OpenMp.calculateLaplacian_in_place, OpenMp.calculateLaplacian, sweep.
  change (OpenMp.deref [U] 0) with U.
  rewrite <- (for_loop_map (λ V : grid float, [V]) (sweep_row n mask fac U)).
  - reflexivity.
  - intros i V. unfold sweep_row.
    apply (for_loop_map (λ V : grid float, [V]) (sweep_cell mask fac U i)).
    intros j V'. unfold sweep_cell. by destruct (negb (rdb mask i j)).
Qed.

Lemma sweep_cell_inv n mask fac U0 i j V :
  1 ≤ i < n - 1 → 1 ≤ j < n - 1 →
  sweep_inv n mask fac U0 i j V → sweep_inv n mask fac U0 i (S j) (sweep_cell mask fac U0 i j V).
Proof.
  intros Hi Hj Hinv. unfold sweep_cell.
  destruct (rdb mask i j) eqn:Em; cbn [negb].
  - intros a b. destruct (Hinv a b) as [H1 H2]. split.
    + intros [Hs Hb]. apply H1. split; [done|]. unfold before in *.
      destruct (decide (a = i ∧ b = j)) as [[-> ->]|]; [|lia].
      destruct Hs as (_ & _ & Hs). congruence.
    + intros Hn. apply H2. intros [Hs Hb]. apply Hn. split; [done|].
      unfold before in *. lia.
  - assert (∀ a b, (a, b) ≠ (i, j) →
              cellO (set_cell V i j (OpenMp.update_val V U0 fac i j)) a b = cellO V a b)
      as Hne by (intros; by apply cellO_set_cell_ne).
    assert (∀ a b, swept n mask a b → before a b i (S j) →
              gauss_seidel_val fac U0 (set_cell V i j (OpenMp.update_val V U0 fac i j)) a b
              = gauss_seidel_val fac U0 V a b) as Hg.
    { intros a b (Ha & Hb & _) Hbef. unfold gauss_seidel_val, before in *.
      rewrite (rd_ext _ V (a - 1) b), (rd_ext _ V a (b - 1)); [done|..];
        apply Hne; intros [= ? ?]; lia. }
    assert (OpenMp.update_val V U0 fac i j = gauss_seidel_val fac U0 V i j) as Hv.
    { unfold OpenMp.update_val, gauss_seidel_val. cbv zeta.
      rewrite (rd_ext V U0 i j), (rd_ext V U0 (i + 1) j), (rd_ext V U0 i (j + 1));
        [done|..]; apply Hinv; unfold before; lia. }
    intros a b. destruct (Hinv a b) as [H1 H2]. split.
    + intros [Hs Hb]. rewrite Hg by done.
      destruct (decide (a = i ∧ b = j)) as [[-> ->]|Hab].
      * rewrite cellO_set_cell_eq, Hv. f_equal. apply Hinv. unfold before. lia.
      * rewrite Hne by (intros [= ? ?]; lia). apply H1. split; [done|].
        unfold before in *. lia.
    + intros Hn. rewrite Hne.
      * apply H2. intros [Hs Hb]. apply Hn. split; [done|]. unfold before in *. lia.
      * intros [= -> ->]. apply Hn. split; [done|]. unfold before. lia.
Qed.

Lemma sweep_row_inv n mask fac U0 i V :
  1 ≤ i < n - 1 →
  sweep_inv n mask fac U0 i 1 V → sweep_inv n mask fac U0 (S i) 1 (sweep_row n mask fac U0 i V).
Proof.
  intros Hi Hinv. unfold sweep_row.
  assert (sweep_inv n mask fac U0 i (n - 1)
            (for_loop 1 (n - 1) (sweep_cell mask fac U0 i) V)) as H.
  { apply (for_loop_inv (λ j V, sweep_inv n mask fac U0 i j V)); [lia|done|].
    intros j V' Hj HV'. by apply sweep_cell_inv. }
  intros a b. destruct (H a b) as [H1 H2]. split.
  - intros [Hs Hb]. apply H1. split; [done|]. destruct Hs as (? & ? & _).
    unfold before in *. lia.
  - intros Hn. apply H2. intros [Hs Hb]. apply Hn. split; [done|].
    destruct Hs as (? & ? & _). unfold before in *. lia.
Qed.

Lemma sweep_cells n mask fac U0 a b :
  let R := sweep n mask fac U0 U0 in
  (swept n mask a b → cellO R a b = overwrite (gauss_seidel_val fac U0 R a b) (cellO U0 a b)) ∧
  (¬ swept n mask a b → cellO R a b = cellO U0 a b).
Proof.
  cbv zeta. unfold sweep.
  destruct (decide (1 ≤ n - 1)) as [Hn|Hn].
  - assert (sweep_inv n mask fac U0 (n - 1) 1
              (for_loop 1 (n - 1) (sweep_row n mask fac U0) U0)) as H.
    { apply (for_loop_inv (λ i V, sweep_inv n mask fac U0 i 1 V)); [lia| |].
      - intros a' b'. split; [|done].
        intros [(? & ? & _) Hb]. unfold before in Hb. lia.
      - intros i V Hi HV. by apply sweep_row_inv. }
    destruct (H a b) as [H1 H2]. split.
    + intros Hs. apply H1. split; [done|]. destruct Hs as (? & ? & _).
      unfold before. lia.
    + intros Hns. apply H2. tauto.
  - unfold for_loop. replace (n - 1 - 1) with 0 by lia. simpl. split; [|done].
    intros (? & ? & _). lia.
Qed.

(** X18.  The call calculateLaplacian(U, U, mask, fac) of the shared-memory
    [main], run by one thread, updates U in place: in the result R every
    unmasked interior cell holds
    2*U - U + fac * (R[i-1][j] + U[i+1][j] + R[i][j-1] + U[i][j+1] - 4*U),
    where the upper and the left neighbour are read after their own update (R)
    and the lower and the right one before (U); every other cell keeps its
    value.  The copy Uprev = U makes the scheme two-layer. *)
Theorem calculateLaplacian_in_place_cells (n : nat) (U : grid float) (mask : grid bool)
    (fac : float) (i j : nat) :
  let R := OpenMp.calculateLaplacian_in_place n U mask fac in
  (1 ≤ i < n - 1 ∧ 1 ≤ j < n - 1 ∧ rdb mask i j = false →
     cellO R i j =
       overwrite (2 * rd U i j - rd U i j
                  + fac * (rd R (i - 1) j + rd U (i + 1) j + rd R i (j - 1) + rd U i (j + 1)
                           - 4 * rd U i j))%float
                 (cellO U i j)) ∧
  (¬ (1 ≤ i < n - 1 ∧ 1 ≤ j < n - 1 ∧ rdb mask i j = false) → cellO R i j = cellO U i j).
Proof.
  cbv zeta. rewrite in_place_is_sweep. apply (sweep_cells n mask fac U i j).
Qed.

(** X19.  Called with two distinct vectors, [calculateLaplacian] of the
    shared-memory variant, run by one thread, leaves U as it is and writes
    into Unew exactly what the serial [updateLaplacian] writes. *)
Theorem calculateLaplacian_two_buffers (n : nat) (U Unew : grid float) (mask : grid bool)
    (fac : float) :
  OpenMp.calculateLaplacian n 0 1 mask fac [U; Unew]
  = [U; Serial.updateLaplacian n U Unew mask fac].
Proof.
  unfold OpenMp.calculateLaplacian, Serial.updateLaplacian.
  change (OpenMp.deref [U; Unew] 0) with U.
  rewrite <- (for_loop_map (λ V : grid float, [U; V])
                (λ i V, for_loop 1 (n - 1) (λ j V,
                   if negb (rdb mask i j) then set_cell V i j (Serial.update_val U fac i j)
                   else V) V)).
  - reflexivity.
  - intros i V.
    apply (for_loop_map (λ V : grid float, [U; V])
             (λ j V, if negb (rdb mask i j)
                     then set_cell V i j (Serial.update_val U fac i j) else V)).
    intros j V'. by destruct (negb (rdb mask i j)).
Qed.

(** * The visualising variant *)

Lemma sfml_stencil_writes n U Uprev mask fac :
  writes (λ Unew, Sfml.stencil n U Uprev Unew mask fac)
    (λ i j, 1 ≤ i < n - 1 ∧ 1 ≤ j < n - 1 ∧ rdb mask i j = false)
    (Sfml.update_val U Uprev fac).
Proof.
  unfold Sfml.stencil. eapply writes_ext.
  - eapply writes_for; intros i Hi. eapply writes_for; intros j Hj.
    eapply (writes_if _ (λ m, set_cell m _ _ _)). eapply writes_set. reflexivity.
  - foot.
Qed.

(** X20.  The stencil loop in [main] of the visualising variant is the
    three-layer leapfrog scheme: every unmasked interior cell of Unew
    receives exactly 2*U - Uprev + fac * (up + down + left + right - 4*U),
    with the previous layer Uprev, and every other cell of Unew keeps its
    value. *)
Theorem sfml_stencil_leapfrog (n : nat) (U Uprev Unew : grid float) (mask : grid bool)
    (fac : float) (i j : nat) :
  (1 ≤ i < n - 1 ∧ 1 ≤ j < n - 1 ∧ rdb mask i j = false →
     cellO (Sfml.stencil n U Uprev Unew mask fac) i j =
       overwrite (leapfrog_val U Uprev fac i j) (cellO Unew i j)) ∧
  (¬ (1 ≤ i < n - 1 ∧ 1 ≤ j < n - 1 ∧ rdb mask i j = false) →
     cellO (Sfml.stencil n U Uprev Unew mask fac) i j = cellO Unew i j).
Proof.
  destruct (sfml_stencil_writes n U Uprev mask fac Unew i j) as (H1 & H2 & _).
  split; [|exact H2]. intros H. rewrite H1 by exact H. reflexivity.
Qed.

(** X21.  The colour of a pixel, whenever the conversion to int is defined: a
    wall is black; an open cell gets red = green = the value
    int(127.5 * (U + 1)) clamped to 0 .. 255 and blue = 255 - red; every
    channel lies in 0 .. 255, so the conversion to Uint8 never wraps. *)
Theorem pixel_channels (masked : bool) (u : float) (col : Sfml.Color) :
  Sfml.pixel masked u = Some col →
  (masked = true → col = Sfml.Black) ∧
  (masked = false →
     ∃ v, Sfml.to_int (127.5 * (u + 1))%float = Some v ∧
          Sfml.r col = Z.max 0 (Z.min 255 v)) ∧
  (0 ≤ Sfml.r col ≤ 255)%Z ∧ (0 ≤ Sfml.g col ≤ 255)%Z ∧ (0 ≤ Sfml.b col ≤ 255)%Z ∧
  (masked = false → Sfml.g col = Sfml.r col ∧ Sfml.b col = (255 - Sfml.r col)%Z).
Proof.
  unfold Sfml.pixel. destruct masked.
  - intros [= <-]. split_and!; try done; cbn; lia.
  - destruct (Sfml.to_int _) as [v|]; [|done]. cbn [mbind option_bind].
    intros [= <-]. unfold Sfml.mkColor, Sfml.Uint8. cbn [Sfml.r Sfml.g Sfml.b].
    assert (0 ≤ Z.max 0 (Z.min 255 v) ≤ 255)%Z as Hc by lia.
    rewrite !Z.mod_small by lia.
    split_and!; [done|intros _; by exists v|lia..|done].
Qed.

Lemma pixel_channels_witness :
  (false = true → {| Sfml.r := 191; Sfml.g := 191; Sfml.b := 64 |} = Sfml.Black) ∧
  (false = false →
     ∃ v, Sfml.to_int (127.5 * (0.5 + 1))%float = Some v ∧
          Sfml.r {| Sfml.r := 191; Sfml.g := 191; Sfml.b := 64 |} = Z.max 0 (Z.min 255 v)) ∧
  (0 ≤ Sfml.r {| Sfml.r := 191; Sfml.g := 191; Sfml.b := 64 |} ≤ 255)%Z ∧
  (0 ≤ Sfml.g {| Sfml.r := 191; Sfml.g := 191; Sfml.b := 64 |} ≤ 255)%Z ∧
  (0 ≤ Sfml.b {| Sfml.r := 191; Sfml.g := 191; Sfml.b := 64 |} ≤ 255)%Z ∧
  (false = false →
     Sfml.g {| Sfml.r := 191; Sfml.g := 191; Sfml.b := 64 |}
       = Sfml.r {| Sfml.r := 191; Sfml.g := 191; Sfml.b := 64 |} ∧
     Sfml.b {| Sfml.r := 191; Sfml.g := 191; Sfml.b := 64 |}
       = (255 - Sfml.r {| Sfml.r := 191; Sfml.g := 191; Sfml.b := 64 |})%Z).
Proof.
  apply (pixel_channels false 0.5%float {| Sfml.r := 191; Sfml.g := 191; Sfml.b := 64 |}).
  vm_compute. reflexivity.
Defined.

(** X22.  The image update of the visualising variant, when it completes
    (every conversion to int defined), has assigned every pixel (i, j) of the
    N x N image the colour of cell (i, j) of the current field and mask: no
    pixel keeps the colour it had before. *)
Theorem update_image_pixels (n : nat) (mask : grid bool) (U : grid float)
    (image image' : grid Sfml.Color) (i j : nat) :
  Sfml.update_image n mask U image = Some image' → i < n → j < n →
  ∃ col, Sfml.pixel (rdb mask i j) (rd U i j) = Some col ∧
         cellO image' i j = overwrite col (cellO image i j).
Proof.
  intros Hrun Hi Hj. unfold Sfml.update_image in Hrun.
  assert (image_inv n mask U image n 0 image') as H.
  { eapply (for_loopM_inv (λ i im, image_inv n mask U image i 0 im)); [| | |exact Hrun].
    - lia.
    - intros a b. split; [|done]. unfold before. lia.
    - intros k im im' Hk Hinv Hrow.
      assert (image_inv n mask U image k n im') as Hend.
      { eapply (for_loopM_inv (λ j im, image_inv n mask U image k j im)); [| | |exact Hrow].
        - lia.
        - exact Hinv.
        - intros l im1 im2 Hl Hinv1. cbv beta.
          destruct (Sfml.pixel (rdb mask k l) (rd U k l)) as [col|] eqn:Ep;
            cbn [mbind option_bind]; [|done].
          intros [= <-]. intros a b.
          destruct (Hinv1 a b) as [H1 H2].
          destruct (decide (a = k ∧ b = l)) as [[-> ->]|Hab].
          + split.
            * intros _. exists col. split; [done|].
              rewrite cellO_set_cell_eq, H2; [done|]. unfold before. lia.
            * intros Hn. exfalso. apply Hn. unfold before. lia.
          + rewrite cellO_set_cell_ne by (intros [= ? ?]; lia). split.
            * intros Hb. apply H1. unfold before in *. lia.
            * intros Hn. apply H2. unfold before in *. lia. }
      intros a b. destruct (Hend a b) as [H1 H2]. split.
      + intros Hb. apply H1. unfold before in *. lia.
      + intros Hn. apply H2. unfold before in *. lia. }
  destruct (H i j) as [H1 _]. apply H1. unfold before. lia.
Qed.

Lemma update_image_pixels_witness :
  ∃ col, Sfml.pixel (rdb (mk_grid 2 2 false) 0 1) (rd (mk_grid 2 2 0%float) 0 1) = Some col ∧
         cellO (mk_grid 2 2 {| Sfml.r := 127; Sfml.g := 127; Sfml.b := 128 |}) 0 1
         = overwrite col (cellO (mk_grid 2 2 Sfml.White) 0 1).
Proof.
  apply (update_image_pixels 2 (mk_grid 2 2 false) (mk_grid 2 2 0%float)
           (mk_grid 2 2 Sfml.White)
           (mk_grid 2 2 {| Sfml.r := 127; Sfml.g := 127; Sfml.b := 128 |}) 0 1).
  - vm_compute. reflexivity.
  - lia.
  - lia.
Defined.

(** * The Monte-Carlo estimate of pi *)

Lemma trial_count rand seed lo cnt (c : Z) :
  (c ≤ iter_from (PiSeq.trial rand seed) lo cnt c ≤ c + Z.of_nat cnt)%Z.
Proof.
  revert lo c. induction cnt as [|cnt IH]; intros lo c; simpl iter_from; [lia|].
  specialize (IH (S lo) (PiSeq.trial rand seed lo c)).
  assert (c ≤ PiSeq.trial rand seed lo c ≤ c + 1)%Z.
  { unfold PiSeq.trial. cbv zeta. destruct (_ <=? _)%float; lia. }
  lia.
Qed.

Lemma localCount_bounds rand numRanks rank :
  1 ≤ numRanks →
  (0 ≤ PiSeq.localCount rand numRanks rank ≤ PiSeq.iterPerProcess numRanks)%Z.
Proof.
  intros Hn. unfold PiSeq.localCount, for_loop. rewrite Nat.sub_0_r.
  pose proof (trial_count rand (PiSeq.SEED * Z.of_nat rank) 0
                (Z.to_nat (PiSeq.iterPerProcess numRanks)) 0) as H.
  assert (0 ≤ PiSeq.iterPerProcess numRanks)%Z.
  { unfold PiSeq.iterPerProcess, PiSeq.NUM_ITER. apply Z.div_pos; lia. }
  lia.
Qed.

Lemma sum_bounds (f : nat → Z) (hi : Z) (l : list nat) :
  (∀ r, 0 ≤ f r ≤ hi)%Z →
  (0 ≤ foldr Z.add 0 (f <$> l) ≤ Z.of_nat (length l) * hi)%Z.
Proof.
  intros Hf. induction l as [|r l IH]; [simpl; lia|].
  rewrite fmap_cons. cbn [foldr length]. rewrite Nat2Z.inj_succ.
  specialize (Hf r). lia.
Qed.

(** X23.  The counters of the Monte-Carlo program never overflow: for every
    number of processes (at least one), every rank and every sequence of
    random numbers, localCount lies between 0 and iterPerProcess, and the
    reduced totalCount lies between 0 and numRanks * iterPerProcess =
    NUM_ITER - NUM_ITER mod numRanks, which is at most NUM_ITER = 10^9 and
    below the largest int. *)
Theorem counts_bounded (rand : Z → nat → Z) (numRanks rank : nat) :
  1 ≤ numRanks →
  (0 ≤ PiSeq.localCount rand numRanks rank ≤ PiSeq.iterPerProcess numRanks)%Z ∧
  (0 ≤ PiSeq.totalCount rand numRanks
     ≤ Z.of_nat numRanks * PiSeq.iterPerProcess numRanks)%Z ∧
  (Z.of_nat numRanks * PiSeq.iterPerProcess numRanks
   = PiSeq.NUM_ITER - PiSeq.NUM_ITER mod Z.of_nat numRanks)%Z ∧
  (PiSeq.totalCount rand numRanks ≤ PiSeq.NUM_ITER < PiSeq.INT_MAX)%Z.
Proof.
  intros Hn.
  pose proof (localCount_bounds rand numRanks rank Hn) as Hl.
  assert (0 ≤ PiSeq.totalCount rand numRanks
            ≤ Z.of_nat numRanks * PiSeq.iterPerProcess numRanks)%Z as Ht.
  { unfold PiSeq.totalCount.
    pose proof (sum_bounds (PiSeq.localCount rand numRanks)
                  (PiSeq.iterPerProcess numRanks) (seq 0 numRanks)
                  (λ r, localCount_bounds rand numRanks r Hn)) as H.
    by rewrite length_seq in H. }
  assert (Z.of_nat numRanks * PiSeq.iterPerProcess numRanks
          = PiSeq.NUM_ITER - PiSeq.NUM_ITER mod Z.of_nat numRanks)%Z as Hd.
  { unfold PiSeq.iterPerProcess.
    pose proof (Z.div_mod PiSeq.NUM_ITER (Z.of_nat numRanks) ltac:(lia)). lia. }
  pose proof (Z.mod_pos_bound PiSeq.NUM_ITER (Z.of_nat numRanks) ltac:(lia)) as Hm.
  split_and!; [lia|lia|lia|lia|exact Hd|lia|reflexivity].
Qed.

Lemma counts_bounded_witness :
  (0 ≤ PiSeq.localCount (λ _ k, Z.of_nat k) 3 1 ≤ PiSeq.iterPerProcess 3)%Z ∧
  (0 ≤ PiSeq.totalCount (λ _ k, Z.of_nat k) 3 ≤ Z.of_nat 3 * PiSeq.iterPerProcess 3)%Z ∧
  (Z.of_nat 3 * PiSeq.iterPerProcess 3 = PiSeq.NUM_ITER - PiSeq.NUM_ITER mod Z.of_nat 3)%Z ∧
  (PiSeq.totalCount (λ _ k, Z.of_nat k) 3 ≤ PiSeq.NUM_ITER < PiSeq.INT_MAX)%Z.
Proof. apply (counts_bounded (λ _ k, Z.of_nat k) 3 1). lia. Defined.
